(** * git-distance: the metric engine and its command-line driver

    The JavaScript source compares two versions of every file that
    differs between two git branches with one of eight string metrics
    and prints the per-file values and their total.  This development
    embeds the metric functions and the [run] driver of the source file
    that defines them and proves the properties stated for them; the line
    numbers below refer to that file.

    Conventions of the embedding
    - a JavaScript string is the list of its UTF-16 code units
      ([jsstring], code units as [Z]); [s.length] is [length s] and
      [s[i]] is the lookup [s !! i], [None] standing for [undefined];
    - [===] on two such reads is [strict_eq], decidable equality of
      [option Z];
    - integer-valued numbers are [Z] (what binary64 holds exactly below
      2^53, a bound no string length reaches), fractional ones are
      binary64 [float]s with the operations of IEEE 754;
    - arrays are lists, read by lookup and written by index; the loops
      only use indices inside the arrays (see the [dims] lemmas and
      [scan_invariant]);
    - a counting [for] loop is [for_loop first count body];
    - console output, shell commands and the ways a run can end are the
      events and the outcome of the [io] computations of the driver. *)

From Stdlib Require Import ZArith Lia Floats Uint63 Ascii String.
From stdpp Require Import base list.

Abbreviation jsstring := (list Z).
Abbreviation matrix := (list (list Z)).

(** ** Strings *)

(** A literal of the source, as code units (ASCII literals only). *)
Definition str (s : String.string) : jsstring :=
  List.map (fun c => Z.of_N (N_of_ascii c)) (list_ascii_of_string s).

(** [s.length] as a JavaScript number. *)
Definition len (s : jsstring) : Z := Z.of_nat (length s).

(** [x === y] for two values read out of strings. *)
Definition strict_eq (x y : option Z) : bool := bool_decide (x = y).

(** [s.padEnd(n, ' ')] with a one-unit filler [c]. *)
Definition padEnd (s : jsstring) (n : nat) (c : Z) : jsstring :=
  s ++ replicate (n - length s) c.

Definition SPACE : Z := 32.
Definition NEWLINE : Z := 10.

(** ** Loops and tables *)

(** [for (let i = first; i < first + count; i++) s = body(i, s)]. *)
Fixpoint for_loop {St : Type} (first count : nat)
    (body : nat → St → St) (s : St) : St :=
  match count with
  | O => s
  | S count' => for_loop (S first) count' body (body first s)
  end.

(** [Array(r).fill(null).map(() => Array(c).fill(0))]. *)
Definition new_matrix (r c : nat) : matrix := replicate r (replicate c 0%Z).

(** [m[i][j]] read. *)
Definition mget (m : matrix) (i j : nat) : Z :=
  default 0%Z (m !! i ≫= (.!! j)).

(** [m[i][j] = v]. *)
Definition mset (m : matrix) (i j : nat) (v : Z) : matrix :=
  alter (<[j := v]>) i m.

(** Shape of a table: [r] rows of [c] cells. *)
Definition dims (m : matrix) (r c : nat) : Prop :=
  length m = r ∧ Forall (λ row, length row = c) m.

(** State of a row-by-row fill about to write cell [(i, j)]: the table
    has its shape, and the borders and every cell before [(i, j)] hold
    the value the recurrence [F] gives them. *)
Definition filled (len1 len2 : nat) (F : nat → nat → Z)
    (m : matrix) (i j : nat) : Prop :=
  dims m (len1 + 1) (len2 + 1) ∧
  ∀ i' j', i' ≤ len1 → j' ≤ len2 →
    i' = 0 ∨ j' = 0 ∨ i' < i ∨ (i' = i ∧ j' < j) →
    mget m i' j' = F i' j'.

(** ** Longest common subsequence (source lines 162-187) *)

(** The nested fill loops, returning the whole table [dp]. *)
Definition lcs_table (str1 str2 : jsstring) : matrix :=
  let len1 := length str1 in
  let len2 := length str2 in
  let dp := new_matrix (len1 + 1) (len2 + 1) in
  for_loop 1 len1 (λ i dp,
    for_loop 1 len2 (λ j dp,
      if strict_eq (str1 !! (i - 1)) (str2 !! (j - 1))
      then mset dp i j (mget dp (i - 1) (j - 1) + 1)
      else mset dp i j (Z.max (mget dp (i - 1) j) (mget dp i (j - 1))))
    dp) dp.

Definition longestCommonSubsequence (str1 str2 : jsstring) : Z :=
  let len1 := length str1 in
  let len2 := length str2 in
  if bool_decide (len1 = 0) || bool_decide (len2 = 0)
  then Z.max (Z.of_nat len1) (Z.of_nat len2)
  else
    let dp := lcs_table str1 str2 in
    let lcsLength := mget dp len1 len2 in
    let maxLength := Z.max (Z.of_nat len1) (Z.of_nat len2) in
    (maxLength - lcsLength)%Z.

(** *** What the table is meant to hold *)

(** [s] is a subsequence of both [a] and [b]. *)
Definition common_subseq (s a b : jsstring) : Prop :=
  s `sublist_of` a ∧ s `sublist_of` b.

(** [n] is the length of a longest common subsequence of [a] and [b]. *)
Definition is_lcs_length (a b : jsstring) (n : nat) : Prop :=
  (∃ s, common_subseq s a b ∧ length s = n) ∧
  (∀ s, common_subseq s a b → length s ≤ n).

(** The recurrence of the dynamic program, by prefix lengths. *)
Fixpoint lcs_rec (a b : jsstring) (i : nat) : nat → nat :=
  fix row (j : nat) : nat :=
    match i, j with
    | O, _ => O
    | _, O => O
    | S i', S j' =>
        if strict_eq (a !! i') (b !! j')
        then S (lcs_rec a b i' j')
        else Nat.max (lcs_rec a b i' j) (row j')
    end.

(** The table claim as the specification words it for all matrix-based
    metrics: the table has [len(a)+1] rows of [len(b)+1] cells, and its
    row 0 and column 0 hold the index values [0..len]. *)
Definition lcs_table_as_stated : Prop :=
  ∀ (a b : jsstring) (i j : nat), i ≤ length a → j ≤ length b →
    dims (lcs_table a b) (length a + 1) (length b + 1) ∧
    mget (lcs_table a b) i 0 = Z.of_nat i ∧
    mget (lcs_table a b) 0 j = Z.of_nat j.

(** ** Hamming distance (source lines 13-29) *)

Definition hammingDistance (str1 str2 : jsstring) : Z :=
  let len1 := length str1 in
  let len2 := length str2 in
  let maxLen := Nat.max len1 len2 in
  let padded1 := padEnd str1 maxLen SPACE in
  let padded2 := padEnd str2 maxLen SPACE in
  for_loop 0 maxLen (λ i distance,
    if negb (strict_eq (padded1 !! i) (padded2 !! i))
    then (distance + 1)%Z
    else distance) 0%Z.

(** Number of positions at which two strings read side by side differ. *)
Fixpoint differing_positions (x y : jsstring) : nat :=
  match x, y with
  | c :: x', d :: y' =>
      (if decide (c = d) then 0 else 1) + differing_positions x' y'
  | _, _ => 0
  end.

(** ** Character additions (source lines 39-41) *)

Definition calculateAdditions (str1 str2 : jsstring) : Z :=
  (len str2 - len str1)%Z.

(** ** Line count difference (source lines 197-201) *)

(** [s.split(sep)] for a separator of one code unit. *)
Fixpoint split_on (sep : Z) (s : jsstring) : list jsstring :=
  match s with
  | [] => [[]]
  | c :: s' =>
      if decide (c = sep) then [] :: split_on sep s'
      else match split_on sep s' with
           | seg :: rest => (c :: seg) :: rest
           | [] => [[c]]
           end
  end.

Definition lineCountDifference (str1 str2 : jsstring) : Z :=
  let lines1 := length (split_on NEWLINE str1) in
  let lines2 := length (split_on NEWLINE str2) in
  (Z.of_nat lines2 - Z.of_nat lines1)%Z.

(** [segs.join(sep)]: the segments with one separator between neighbours. *)
Fixpoint join_with (sep : Z) (segs : list jsstring) : jsstring :=
  match segs with
  | [] => []
  | [seg] => seg
  | seg :: rest => seg ++ sep :: join_with sep rest
  end.

(** ** Word count difference (source lines 211-215) *)

(** The class [\s] of JavaScript regular expressions. *)
Definition is_ws (c : Z) : bool :=
  bool_decide (c ∈ [9; 10; 11; 12; 13; 32; 160; 5760; 8232; 8233; 8239;
                    8287; 12288; 65279]%Z)
  || (8192 <=? c)%Z && (c <=? 8202)%Z.

(** [s.split(/\s+/)]: the pieces between maximal runs of white space;
    [in_ws] tells that the unit before [s] was white space. *)
Fixpoint split_ws (in_ws : bool) (s : jsstring) : list jsstring :=
  match s with
  | [] => [[]]
  | c :: s' =>
      if is_ws c
      then if in_ws then split_ws true s' else [] :: split_ws true s'
      else match split_ws false s' with
           | seg :: rest => (c :: seg) :: rest
           | [] => [[c]]
           end
  end.

(** [Boolean(s)] for a string: true unless empty. *)
Definition Boolean (s : jsstring) : bool := negb (bool_decide (s = [])).

Definition wordCountDifference (str1 str2 : jsstring) : Z :=
  let words1 := length (filter (λ s, Boolean s = true) (split_ws false str1)) in
  let words2 := length (filter (λ s, Boolean s = true) (split_ws false str2)) in
  (Z.of_nat words2 - Z.of_nat words1)%Z.

(** ** Damerau-Levenshtein distance (source lines 51-86) *)

(** The two border loops and the nested fill loops, returning the whole
    table [matrix]. *)
Definition dl_table (str1 str2 : jsstring) : matrix :=
  let len1 := length str1 in
  let len2 := length str2 in
  let matrix := new_matrix (len1 + 1) (len2 + 1) in
  let matrix :=
    for_loop 0 (len1 + 1) (λ i matrix, mset matrix i 0 (Z.of_nat i)) matrix in
  let matrix :=
    for_loop 0 (len2 + 1) (λ j matrix, mset matrix 0 j (Z.of_nat j)) matrix in
  for_loop 1 len1 (λ i matrix,
    for_loop 1 len2 (λ j matrix,
      let cost := if strict_eq (str1 !! (i - 1)) (str2 !! (j - 1)) then 0%Z else 1%Z in
      let matrix :=
        mset matrix i j
          (Z.min (Z.min (mget matrix (i - 1) j + 1)
                        (mget matrix i (j - 1) + 1))
                 (mget matrix (i - 1) (j - 1) + cost)) in
      if bool_decide (1 < i) && bool_decide (1 < j) &&
         strict_eq (str1 !! (i - 1)) (str2 !! (j - 2)) &&
         strict_eq (str1 !! (i - 2)) (str2 !! (j - 1))
      then mset matrix i j
             (Z.min (mget matrix i j) (mget matrix (i - 2) (j - 2) + cost))
      else matrix)
    matrix) matrix.

Definition damerauLevenshtein (str1 str2 : jsstring) : Z :=
  let len1 := length str1 in
  let len2 := length str2 in
  if bool_decide (len1 = 0) then Z.of_nat len2
  else if bool_decide (len2 = 0) then Z.of_nat len1
  else mget (dl_table str1 str2) len1 len2.

(** The dynamic program as the specification words it: unit-cost
    Levenshtein (delete, insert, substitute) over prefix lengths, where a
    cell whose last two units are swapped ([a[i-1] = b[j-2]] and
    [a[i-2] = b[j-1]]) may also take the value two steps back on the
    diagonal plus the substitution cost. *)
Fixpoint damerau_recurrence (a b : jsstring) (i : nat) : nat → Z :=
  fix row (j : nat) : Z :=
    match i, j with
    | O, _ => Z.of_nat j
    | _, O => Z.of_nat i
    | S i1, S j1 =>
        let cost := if strict_eq (a !! i1) (b !! j1) then 0%Z else 1%Z in
        let levenshtein_step :=
          Z.min (Z.min (damerau_recurrence a b i1 j + 1) (row j1 + 1))
                (damerau_recurrence a b i1 j1 + cost) in
        match i1, j1 with
        | S i2, S j2 =>
            if strict_eq (a !! i1) (b !! j2) && strict_eq (a !! i2) (b !! j1)
            then Z.min levenshtein_step (damerau_recurrence a b i2 j2 + cost)
            else levenshtein_step
        | _, _ => levenshtein_step
        end
    end.

(** ** Jaro-Winkler distance (source lines 96-151) *)

(** An integer-valued JavaScript number as a binary64 value (exact below
    2^53). *)
Definition float_of_nat (n : nat) : float :=
  PrimFloat.of_uint63 (Uint63.of_Z (Z.of_nat n)).

(** State of the matching scan: the two flag arrays and the counter. *)
Record match_state : Type := MatchState {
  str1Matches : list bool;
  str2Matches : list bool;
  matches : nat
}.

(** The inner loop of the scan, [for (let j = start; j < end; j++)] with
    its [continue] and [break]: the first [j] of the window whose flag
    is clear and whose unit equals [str1[i]], if there is one. *)
Fixpoint first_match (str1 str2 : jsstring) (flags2 : list bool)
    (i j count : nat) : option nat :=
  match count with
  | O => None
  | S count' =>
      if bool_decide (flags2 !! j = Some true) || negb (strict_eq (str1 !! i) (str2 !! j))
      then first_match str1 str2 flags2 i (S j) count'
      else Some j
  end.

Definition matchWindow (str1 str2 : jsstring) : Z :=
  (Z.max (len str1) (len str2) / 2 - 1)%Z.

(** Bounds [start] and [end] of the window of position [i]. *)
Definition window_start (str1 str2 : jsstring) (i : nat) : Z :=
  Z.max 0 (Z.of_nat i - matchWindow str1 str2).

Definition window_end (str1 str2 : jsstring) (i : nat) : Z :=
  Z.min (Z.of_nat i + matchWindow str1 str2 + 1) (len str2).

(** One iteration of the outer loop of the scan. *)
Definition match_step (str1 str2 : jsstring) (i : nat) (st : match_state)
    : match_state :=
  let start := window_start str1 str2 i in
  let end_ := window_end str1 str2 i in
  match first_match str1 str2 (str2Matches st) i
          (Z.to_nat start) (Z.to_nat (end_ - start)) with
  | Some j =>
      MatchState (<[i := true]> (str1Matches st))
                 (<[j := true]> (str2Matches st))
                 (S (matches st))
  | None => st
  end.

(** The matching scan ("Find matches"). *)
Definition find_matches (str1 str2 : jsstring) : match_state :=
  for_loop 0 (length str1) (match_step str1 str2)
    (MatchState (replicate (length str1) false)
                (replicate (length str2) false) 0).

(** [while (!flags[k]) k++], on the flags from index [k] on.  Past the
    end of the array the read is [undefined], the test stays true and the
    loop never ends: that is [None]. *)
Fixpoint skip_unmarked (rest : list bool) (k : nat) : option nat :=
  match rest with
  | [] => None
  | true :: _ => Some k
  | false :: rest' => skip_unmarked rest' (S k)
  end.

(** One iteration of the transposition loop on [(k, transpositions)]. *)
Definition transposition_step (str1 str2 : jsstring) (st : match_state)
    (i : nat) (kt : nat * nat) : option (nat * nat) :=
  let '(k, transpositions) := kt in
  if negb (bool_decide (str1Matches st !! i = Some true)) then Some kt
  else
    k' ← skip_unmarked (drop k (str2Matches st)) k;
    Some (S k',
          if negb (strict_eq (str1 !! i) (str2 !! k'))
          then S transpositions else transpositions).

(** The transposition loop ("Find transpositions"); [None] when the inner
    [while] does not terminate. *)
Definition find_transpositions (str1 str2 : jsstring) (st : match_state)
    : option nat :=
  snd <$> for_loop 0 (length str1)
            (λ i kt, kt ≫= transposition_step str1 str2 st i)
            (Some (0, 0)).

(** The prefix loop, with its [break]. *)
Fixpoint prefix_loop (str1 str2 : jsstring) (i count prefixLen : nat) : nat :=
  match count with
  | O => prefixLen
  | S count' =>
      if strict_eq (str1 !! i) (str2 !! i)
      then prefix_loop str1 str2 (S i) count' (S prefixLen)
      else prefixLen
  end.

(** The arithmetic after the loops. *)
Definition winkler_distance (len1 len2 matches transpositions prefixLen : nat)
    : float :=
  let m := float_of_nat matches in
  let jaro :=
    ((m / float_of_nat len1 + m / float_of_nat len2 +
      (m - float_of_nat transpositions / 2) / m) / 3)%float in
  let winkler :=
    (jaro + 0x1.999999999999ap-4 * float_of_nat prefixLen * (1 - jaro))%float in
  (1 - winkler)%float.

(** The metric; [None] stands for a run that does not terminate. *)
Definition jaroWinkler (str1 str2 : jsstring) : option float :=
  if bool_decide (str1 = str2) then Some 0%float
  else if bool_decide (length str1 = 0) || bool_decide (length str2 = 0)
  then Some 1%float
  else
    let st := find_matches str1 str2 in
    if bool_decide (matches st = 0) then Some 1%float
    else
      transpositions ← find_transpositions str1 str2 st;
      let maxPrefix := Nat.min 4 (Nat.min (length str1) (length str2)) in
      let prefixLen := prefix_loop str1 str2 0 maxPrefix 0 in
      Some (winkler_distance (length str1) (length str2) (matches st)
              transpositions prefixLen).

(** ** Levenshtein distance (imported by the source, line 2) *)

(** Modelled from the spec: the function [distance] of the npm package
    [fastest-levenshtein], which the source imports and which is not part
    of the repository.  The spec describes it as the minimum cost of
    single-character insertions, deletions and substitutions (unit cost
    each) transforming [a] into [b], computed by the classic dynamic
    program; this is that program, over prefix lengths. *)
Fixpoint levenshtein_recurrence (a b : jsstring) (i : nat) : nat → Z :=
  fix row (j : nat) : Z :=
    match i, j with
    | O, _ => Z.of_nat j
    | _, O => Z.of_nat i
    | S i', S j' =>
        let cost := if strict_eq (a !! i') (b !! j') then 0%Z else 1%Z in
        Z.min (Z.min (levenshtein_recurrence a b i' j + 1) (row j' + 1))
              (levenshtein_recurrence a b i' j' + cost)
    end.

(** Modelled from the spec: [distance(a, b)] of [fastest-levenshtein],
    the value of that program at the two full lengths. *)
Definition distance (a b : jsstring) : Z :=
  levenshtein_recurrence a b (length a) (length b).

(** *** Notions used to reason about the matching scan *)

(** Position [j] of the second string lies in the window of position [i]
    of the first, for a window radius [w]. *)
Definition in_window (w : Z) (i j : nat) : Prop :=
  (Z.of_nat i - w ≤ Z.of_nat j ≤ Z.of_nat i + w)%Z.

(** Positions [i] of [a] and [j] of [b] may be matched: they hold the
    same unit and are in each other's window. *)
Definition candidate (a b : jsstring) (w : Z) (i j : nat) : Prop :=
  in_window w i j ∧ ∃ c, a !! i = Some c ∧ b !! j = Some c.

(** A matching between positions of [a] and of [b] that takes, for every
    position, the first free candidate on the other side.  The notion
    does not depend on which string is scanned. *)
Record greedy_matching (a b : jsstring) (w : Z) (M : nat → nat → Prop)
    : Prop := GreedyMatching {
  gm_candidate : ∀ i j, M i j → candidate a b w i j;
  gm_functional : ∀ i j j', M i j → M i j' → j = j';
  gm_injective : ∀ i i' j, M i j → M i' j → i = i';
  gm_first_right : ∀ i j j', M i j → j' < j → b !! j' = b !! j →
    (Z.of_nat i - w ≤ Z.of_nat j')%Z → ∃ i', i' < i ∧ M i' j';
  gm_first_left : ∀ i j i', M i j → i' < i → a !! i' = a !! i →
    (Z.of_nat j - w ≤ Z.of_nat i')%Z → ∃ j', j' < j ∧ M i' j';
  gm_maximal : ∀ i j, candidate a b w i j →
    (∃ j', M i j') ∨ (∃ i', M i' j)
}.

(** Number of set flags. *)
Definition count_true (flags : list bool) : nat :=
  length (filter (λ f, f = true) flags).

(** The units of [s] whose flag is set, in order. *)
Fixpoint marked (s : jsstring) (flags : list bool) : jsstring :=
  match s, flags with
  | c :: s', f :: flags' =>
      if f then c :: marked s' flags' else marked s' flags'
  | _, _ => []
  end.

(** What the outer loop of the scan has established before iteration
    [k]: the flags are those of a matching [M] of the positions below [k]
    that is greedy so far, and the counter is the number of pairs. *)
Record scan_invariant (a b : jsstring) (w : Z) (k : nat) (st : match_state)
    (M : nat → nat → Prop) : Prop := ScanInvariant {
  si_length1 : length (str1Matches st) = length a;
  si_length2 : length (str2Matches st) = length b;
  si_flags1 : ∀ i, str1Matches st !! i = Some true ↔ ∃ j, M i j;
  si_flags2 : ∀ j, str2Matches st !! j = Some true ↔ ∃ i, M i j;
  si_below : ∀ i j, M i j → i < k;
  si_count1 : matches st = count_true (str1Matches st);
  si_count2 : matches st = count_true (str2Matches st);
  si_candidate : ∀ i j, M i j → candidate a b w i j;
  si_functional : ∀ i j j', M i j → M i j' → j = j';
  si_injective : ∀ i i' j, M i j → M i' j → i = i';
  si_first_right : ∀ i j j', M i j → j' < j → b !! j' = b !! j →
    (Z.of_nat i - w ≤ Z.of_nat j')%Z → ∃ i', i' < i ∧ M i' j';
  si_first_left : ∀ i j i', M i j → i' < i → a !! i' = a !! i →
    (Z.of_nat j - w ≤ Z.of_nat i')%Z → ∃ j', j' < j ∧ M i' j';
  si_maximal : ∀ i j, i < k → candidate a b w i j →
    (∃ j', M i j') ∨ (∃ i', M i' j)
}.

(** ** The command-line driver (source lines 225-460) *)

(** A JavaScript number as the driver handles it: an integer-valued
    metric result or a binary64 fraction. *)
Inductive number : Type :=
  | NInt (z : Z)
  | NFloat (f : float).

Definition float_of_Z (z : Z) : float :=
  if (z <? 0)%Z then (- float_of_nat (Z.to_nat (- z)))%float
  else float_of_nat (Z.to_nat z).

Definition to_float (x : number) : float :=
  match x with NInt z => float_of_Z z | NFloat f => f end.

(** [x + y]. *)
Definition number_add (x y : number) : number :=
  match x, y with
  | NInt a, NInt b => NInt (a + b)
  | _, _ => NFloat (to_float x + to_float y)
  end.

(** A console line before formatting: the pieces of its template
    literal, numbers kept as numbers. *)
Inductive fragment : Type :=
  | Text (s : jsstring)
  | Num (v : number).

Abbreviation line := (list fragment).

(** What a run does, in order: shell commands, lines on standard output,
    lines on standard error. *)
Inductive event : Type :=
  | Exec (cmd : jsstring)
  | Log (l : line)
  | Err (l : line).

(** How a computation ends: with a value, by [process.exit(code)], by an
    uncaught exception, or never. *)
Inductive outcome (A : Type) : Type :=
  | Return (x : A)
  | Exit (code : Z)
  | Throw (msg : jsstring)
  | Diverge.

Arguments Return {A} x.
Arguments Exit {A} code.
Arguments Throw {A} msg.
Arguments Diverge {A}.

(** A computation of the driver: its events and its outcome. *)
Definition io (A : Type) : Type := list event * outcome A.

Definition io_ret {A} (x : A) : io A := ([], Return x).

Definition io_bind {A B} (f : A → io B) (m : io A) : io B :=
  match m with
  | (t, Return x) => let '(t', o) := f x in (t ++ t', o)
  | (t, Exit code) => (t, Exit code)
  | (t, Throw msg) => (t, Throw msg)
  | (t, Diverge) => (t, Diverge)
  end.

#[global] Instance io_mret : MRet io := @io_ret.
#[global] Instance io_mbind : MBind io := @io_bind.

Definition console_log (l : line) : io unit := ([Log l], Return tt).
Definition console_error (l : line) : io unit := ([Err l], Return tt).
Definition process_exit {A} (code : Z) : io A := ([], Exit code).
Definition throw {A} (msg : jsstring) : io A := ([], Throw msg).
Definition when (c : bool) (m : io unit) : io unit := if c then m else mret tt.

(** The lines written to standard output. *)
Definition stdout (t : list event) : list line :=
  omap (λ e, match e with Log l => Some l | _ => None end) t.

(** The shell commands executed. *)
Definition commands (t : list event) : list jsstring :=
  omap (λ e, match e with Exec cmd => Some cmd | _ => None end) t.

(** [s.trim()]. *)
Fixpoint trim_start (s : jsstring) : jsstring :=
  match s with
  | c :: s' => if is_ws c then trim_start s' else s
  | [] => []
  end.

Definition trim (s : jsstring) : jsstring :=
  reverse (trim_start (reverse (trim_start s))).

(** [segs.join(sep)] for any separator. *)
Fixpoint join_str (sep : jsstring) (segs : list jsstring) : jsstring :=
  match segs with
  | [] => []
  | [seg] => seg
  | seg :: rest => seg ++ sep ++ join_str sep rest
  end.

(** [args.includes(x)]. *)
Definition includes (args : list jsstring) (x : jsstring) : bool :=
  bool_decide (x ∈ args).

Definition usage : jsstring := str
"Usage: git-distance <branch1> [branch2] [options] [distance-measure]

Compare distance metrics of changed files between branches.
If branch2 is omitted, compares branch1 to current branch.

Options:
  --verbose, -V    Show debug messages
  --list, -L       Show per-file distances (default: only total)

Distance Measures (mutually exclusive, default: Levenshtein):
  --hamming              Hamming distance (character differences, padded for length)
  --additions            Character count difference (can be negative)
  --damerau-levenshtein  Levenshtein distance with transpositions
  --jaro-winkler         Jaro-Winkler similarity converted to distance
  --lcs                  Longest Common Subsequence distance
  --lines                Line count difference (can be negative)
  --words                Word count difference (can be negative)

Examples:
  git-distance main                              # Levenshtein distance (default)
  git-distance main feature --hamming            # Hamming distance
  git-distance main feature --additions --list   # Character additions with per-file breakdown
  git-distance main feature --lines --verbose     # Line count difference with debug output".

Definition distanceFlags : list jsstring :=
  [str "--hamming"; str "--additions"; str "--damerau-levenshtein";
   str "--jaro-winkler"; str "--lcs"; str "--lines"; str "--words"].

(** [distanceFlags.filter(flag => args.includes(flag))]. *)
Definition selectedDistanceFlags (args : list jsstring) : list jsstring :=
  filter (λ flag, includes args flag = true) distanceFlags.

(** The [switch] of [getDistance]; [None] when the metric does not
    terminate. *)
Definition getDistance (distanceMeasure contentA contentB : jsstring)
    : option number :=
  if decide (distanceMeasure = str "--hamming")
  then Some (NInt (hammingDistance contentA contentB))
  else if decide (distanceMeasure = str "--additions")
  then Some (NInt (calculateAdditions contentA contentB))
  else if decide (distanceMeasure = str "--damerau-levenshtein")
  then Some (NInt (damerauLevenshtein contentA contentB))
  else if decide (distanceMeasure = str "--jaro-winkler")
  then NFloat <$> jaroWinkler contentA contentB
  else if decide (distanceMeasure = str "--lcs")
  then Some (NInt (longestCommonSubsequence contentA contentB))
  else if decide (distanceMeasure = str "--lines")
  then Some (NInt (lineCountDifference contentA contentB))
  else if decide (distanceMeasure = str "--words")
  then Some (NInt (wordCountDifference contentA contentB))
  else Some (NInt (distance contentA contentB)).

(** The help gate (lines 329-354): is the usage text asked for? *)
Definition help_requested (args : list jsstring) : bool :=
  bool_decide (length args = 0) || includes args (str "--help")
  || includes args (str "-h").

(** Selection of the metric (lines 360-382): the name of the metric to
    use, or the two error lines and exit code 1. *)
Definition select_metric (args : list jsstring) : io jsstring :=
  let selected := selectedDistanceFlags args in
  if bool_decide (1 < length selected)
  then
    console_error [Text (str "Error: Multiple distance measures specified: "
                         ++ join_str (str ", ") selected)];;
    console_error [Text (str "Please specify only one distance measure at a time.")];;
    process_exit 1
  else
    mret (match selected with
          | flag :: _ => flag
          | [] => str "levenshtein"
          end).

(** The flags [verbose] and [list] (lines 357-358). *)
Definition arg_verbose (args : list jsstring) : bool :=
  includes args (str "--verbose") || includes args (str "-V").

Definition arg_list (args : list jsstring) : bool :=
  includes args (str "--list") || includes args (str "-L").

(** The arguments that are not flags (lines 385-391). *)
Definition branchArgs (args : list jsstring) : list jsstring :=
  filter (λ arg, arg ≠ str "--verbose" ∧ arg ≠ str "-V" ∧
                 arg ≠ str "--list" ∧ arg ≠ str "-L" ∧
                 includes distanceFlags arg = false) args.

(** One line of the per-file listing. *)
Definition row_line (maxFileLen : nat) (file : jsstring) (dist : number) : line :=
  [Text (padEnd file maxFileLen SPACE); Text (str "  "); Num dist].

(** The rule under the listing: U+2500 repeated. *)
Definition rule_line (maxFileLen : nat) : line :=
  [Text (replicate (maxFileLen + 10) 9472%Z)].

Section driver.

(** The shell: the output of a command, or the message of the error its
    failure raises. *)
Variable execSync : jsstring → jsstring + jsstring.

Definition exec (cmd : jsstring) : io (jsstring + jsstring) :=
  ([Exec cmd], Return (execSync cmd)).

Definition fileExistsInBranch (branch file : jsstring) : io bool :=
  r ← exec (str "git cat-file -e " ++ branch ++ str ":" ++ file);
  mret (match r with inl _ => true | inr _ => false end).

Definition getFileFromBranch (branch file : jsstring) (verbose : bool)
    : io jsstring :=
  found ← fileExistsInBranch branch file;
  if negb found
  then
    when verbose (console_error
      [Text (str "[DEBUG] File " ++ file ++ str " does not exist in branch "
             ++ branch ++
             str " (treating as empty string, distance will be length of file in other branch)")]);;
    mret []
  else
    when verbose (console_error
      [Text (str "[DEBUG] Fetching " ++ file ++ str " from branch " ++ branch)]);;
    r ← exec (str "git show " ++ branch ++ str ":" ++ file);
    match r with
    | inl content => mret content
    | inr message =>
        when verbose (console_error
          [Text (str "[DEBUG] Failed to fetch " ++ file ++ str " from "
                 ++ branch ++ str ": " ++ message)]);;
        mret []
    end.

Definition getCurrentBranch (verbose : bool) : io jsstring :=
  r ← exec (str "git rev-parse --abbrev-ref HEAD");
  match r with
  | inl output =>
      let branch := trim output in
      when verbose (console_error
        [Text (str "[DEBUG] Current branch: " ++ branch)]);;
      mret branch
  | inr message =>
      when verbose (console_error
        [Text (str "[DEBUG] Failed to get current branch: " ++ message)]);;
      throw (str "Not in a git repository")
  end.

Definition getChangedFiles (branch1 branch2 : jsstring) (verbose : bool)
    : io (list jsstring) :=
  when verbose (console_error
    [Text (str "[DEBUG] Getting changed files between " ++ branch1
           ++ str " and " ++ branch2)]);;
  r ← exec (str "git diff --name-only " ++ branch1 ++ str ".." ++ branch2);
  match r with
  | inl output =>
      let files :=
        filter (λ s, Boolean s = true) (split_on NEWLINE (trim output)) in
      when verbose (console_error
        [Text (str "[DEBUG] Found "); Num (NInt (Z.of_nat (length files)));
         Text (str " changed files")]);;
      mret files
  | inr message =>
      when verbose (console_error
        [Text (str "[DEBUG] Failed to get changed files: " ++ message)]);;
      throw (str "Failed to compare branches: " ++ message)
  end.

(** The body of [for (const file of files)], threading [total]. *)
Fixpoint report_loop (branch1 branch2 distanceMeasure : jsstring)
    (maxFileLen : nat) (files : list jsstring) (total : number)
    (verbose list : bool) : io number :=
  match files with
  | [] => mret total
  | file :: files' =>
      contentA ← getFileFromBranch branch1 file verbose;
      contentB ← getFileFromBranch branch2 file verbose;
      match getDistance distanceMeasure contentA contentB with
      | None => ([], Diverge)
      | Some dist =>
          let total := number_add total dist in
          when list (console_log (row_line maxFileLen file dist));;
          report_loop branch1 branch2 distanceMeasure maxFileLen files' total
            verbose list
      end
  end.

(** The aggregation (lines 442-459).  With no file and [list] set,
    [Math.max()] is [-Infinity] and [repeat] raises a [RangeError]. *)
Definition report (branch1 branch2 distanceMeasure : jsstring)
    (files : list jsstring) (verbose list : bool) : io unit :=
  let maxFileLen := if list then max_list (length <$> files) else 0 in
  total ← report_loop branch1 branch2 distanceMeasure maxFileLen files
             (NInt 0) verbose list;
  (if list
   then if bool_decide (files = [])
        then throw (str "RangeError: Invalid count value: -Infinity")
        else console_log (rule_line maxFileLen)
   else mret tt);;
  console_log [Num total].

(** Lines 393-410: the two branches to compare. *)
Definition resolve_branches (branchArgs : list jsstring) (verbose : bool)
    : io (jsstring * jsstring) :=
  match branchArgs with
  | [arg] =>
      branch1 ← getCurrentBranch verbose;
      when verbose (console_error
        [Text (str "[DEBUG] Comparing current branch (" ++ branch1
               ++ str ") to " ++ arg)]);;
      mret (branch1, arg)
  | [arg1; arg2] =>
      when verbose (console_error
        [Text (str "[DEBUG] Comparing " ++ arg1 ++ str " to " ++ arg2)]);;
      mret (arg1, arg2)
  | _ =>
      console_error
        [Text (str "Error: Invalid number of arguments. Use --help for usage.")];;
      process_exit 1
  end.

(** [run], on [args = process.argv.slice(2)]. *)
Definition run (args : list jsstring) : io unit :=
  if help_requested args
  then console_log [Text usage];; process_exit 0
  else
    let verbose := arg_verbose args in
    let list := arg_list args in
    distanceMeasure ← select_metric args;
    '(branch1, branch2) ← resolve_branches (branchArgs args) verbose;
    files ← getChangedFiles branch1 branch2 verbose;
    if bool_decide (length files = 0)
    then console_log [Text (str "No changed files between branches.")];;
         process_exit 0
    else report branch1 branch2 distanceMeasure files verbose list.

(** The content [getFileFromBranch] returns, without its events. *)
Definition fileContent (branch file : jsstring) : jsstring :=
  match execSync (str "git cat-file -e " ++ branch ++ str ":" ++ file) with
  | inr _ => []
  | inl _ =>
      match execSync (str "git show " ++ branch ++ str ":" ++ file) with
      | inl content => content
      | inr _ => []
      end
  end.

End driver.

(** *** Two shells to run the driver on *)

(** A repository in which no file differs: every command succeeds with
    empty output. *)
Definition shell_no_change (cmd : jsstring) : jsstring + jsstring := inl [].

(** A repository in which [a.txt] and [bb.txt] differ between [main] and
    [dev]. *)
Definition shell_two_files (cmd : jsstring) : jsstring + jsstring :=
  if decide (cmd = str "git diff --name-only main..dev")
  then inl (str "a.txt" ++ NEWLINE :: str "bb.txt" ++ [NEWLINE])
  else if decide (cmd = str "git show main:a.txt") then inl (str "abc")
  else if decide (cmd = str "git show dev:a.txt") then inl (str "abd")
  else if decide (cmd = str "git show main:bb.txt") then inl (str "ab")
  else if decide (cmd = str "git show dev:bb.txt") then inl (str "abcd")
  else inl [].

(** The sum of integer row values. *)
Definition sum_Z (zs : list Z) : Z := foldr Z.add 0%Z zs.

(** What a report of [files] prints: with [list] the rows in order and
    the rule, then the total. *)
Definition report_lines (files : list jsstring) (dists : list number)
    (per_file : bool) : list line :=
  let maxFileLen := if per_file then max_list (length <$> files) else 0 in
  (if per_file
   then zip_with (row_line maxFileLen) files dists ++ [rule_line maxFileLen]
   else [])
  ++ [[Num (foldl number_add (NInt 0) dists)]].

(** The values of the rows of [files]: the selected metric on the two
    contents of each file, in order. *)
Definition row_values (execSync : jsstring → jsstring + jsstring)
    (distanceMeasure branch1 branch2 : jsstring)
    (files : list jsstring) (dists : list number) : Prop :=
  Forall2 (λ file dist,
    getDistance distanceMeasure (fileContent execSync branch1 file)
      (fileContent execSync branch2 file) = Some dist) files dists.

(** The aggregation claim as the specification words it: whatever the
    changed files, the empty sequence included, the run ends normally
    having reported one row per file in order and their sum (for no file:
    no row, total 0). *)
Definition aggregation_as_stated : Prop :=
  ∀ (execSync : jsstring → jsstring + jsstring) (args : list jsstring)
    (distanceMeasure branch1 branch2 : jsstring) (files : list jsstring)
    (t1 t2 : list event),
    help_requested args = false →
    select_metric args = ([], Return distanceMeasure) →
    resolve_branches execSync (branchArgs args) (arg_verbose args)
      = (t1, Return (branch1, branch2)) →
    getChangedFiles execSync branch1 branch2 (arg_verbose args)
      = (t2, Return files) →
    ∃ dists,
      row_values execSync distanceMeasure branch1 branch2 files dists ∧
      stdout (run execSync args).1 = report_lines files dists (arg_list args) ∧
      (run execSync args).2 = Return tt.

(** ** Notions used by the further properties *)

(** [s.split(/\\s+/).filter(Boolean)]: the words of [s]. *)
Definition words (s : jsstring) : list jsstring :=
  filter (λ w, Boolean w = true) (split_ws false s).

(** Number of positions of [s] at which a word starts: a unit that is not
    white space and follows white space ([after_ws] for the first unit). *)
Fixpoint word_starts (after_ws : bool) (s : jsstring) : nat :=
  match s with
  | [] => 0
  | c :: s' =>
      if is_ws c then word_starts true s'
      else (if after_ws then 1 else 0) + word_starts false s'
  end.

(** The lines written to standard error. *)
Definition stderr (t : list event) : list line :=
  omap (λ e, match e with Err l => Some l | _ => None end) t.

(** A debug line: a line on standard error that starts with the text
    "[DEBUG]". *)
Definition is_debug (e : event) : bool :=
  match e with
  | Err (Text s :: _) => bool_decide (take 7 s = str "[DEBUG]")
  | _ => false
  end.

(** The events of a run without its debug lines. *)
Definition undebug (t : list event) : list event :=
  filter (λ e, is_debug e = false) t.

(** [run] after the usage gate, with the flag [verbose] as a parameter
    (lines 356-459). *)
Definition run_from (execSync : jsstring → jsstring + jsstring)
    (args : list jsstring) (verbose : bool) : io unit :=
  distanceMeasure ← select_metric args;
  '(branch1, branch2) ← resolve_branches execSync (branchArgs args) verbose;
  files ← getChangedFiles execSync branch1 branch2 verbose;
  if bool_decide (length files = 0)
  then console_log [Text (str "No changed files between branches.")];;
       process_exit 0
  else report execSync branch1 branch2 distanceMeasure files verbose
         (arg_list args).


(** The flag [verbose] only adds debug lines to the computation [f]:
    whatever its value, the events without the debug lines and the
    outcome are those of the computation without [verbose], which writes
    no debug line. *)
Definition debug_only {A : Type} (f : bool → io A) : Prop :=
  ∀ verbose,
    undebug (f verbose).1 = (f false).1 ∧ (f verbose).2 = (f false).2.

(** * Proofs *)

Section loops.
Context {St : Type}.

Lemma for_loop_inv (P : nat → St → Prop) body first count s :
  P first s →
  (∀ i s, first ≤ i < first + count → P i s → P (S i) (body i s)) →
  P (first + count) (for_loop first count body s).
Proof.
  revert first s. induction count as [|n IH]; intros first s H0 Hstep; simpl.
  - by rewrite Nat.add_0_r.
  - replace (first + S n) with (S first + n) by lia.
    apply IH.
    + apply Hstep; [lia | done].
    + intros i s' Hi. apply Hstep. lia.
Qed.
End loops.

Lemma dims_new_matrix r c : dims (new_matrix r c) r c.
Proof.
split; [apply length_replicate |].
apply Forall_replicate, length_replicate.
Qed.

Lemma mget_new_matrix r c i j : mget (new_matrix r c) i j = 0%Z.
Proof.
unfold mget, new_matrix.
destruct (decide (i < r)) as [Hi|Hi].
- rewrite lookup_replicate_2 by done. simpl.
  destruct (decide (j < c)) as [Hj|Hj].
  + by rewrite lookup_replicate_2.
  + rewrite lookup_ge_None_2; [done | rewrite length_replicate; lia].
- rewrite lookup_ge_None_2; [done | rewrite length_replicate; lia].
Qed.

Lemma dims_mset m r c i j v : dims m r c → dims (mset m i j v) r c.
Proof.
intros [Hr Hc]. split; unfold mset.
- by rewrite length_alter.
- apply Forall_alter; [done |].
  intros row _. by rewrite length_insert.
Qed.

Lemma mget_mset_eq m r c i j v :
dims m r c → i < r → j < c → mget (mset m i j v) i j = v.
Proof.
intros [Hr Hc] Hi Hj. unfold mget, mset.
rewrite list_lookup_alter, decide_True by done.
destruct (lookup_lt_is_Some_2 m i) as [row Hrow]; [lia |].
rewrite Hrow. simpl.
rewrite list_lookup_insert_eq; [done |].
rewrite Forall_lookup in Hc. by rewrite (Hc _ _ Hrow).
Qed.

Lemma mget_mset_ne m i j i' j' v :
(i', j') ≠ (i, j) → mget (mset m i j v) i' j' = mget m i' j'.
Proof.
intros Hne. unfold mget, mset.
destruct (decide (i = i')) as [->|Hi].
- rewrite list_lookup_alter, decide_True by done.
  destruct (m !! i') as [row|]; [simpl | done].
  rewrite list_lookup_insert_ne; [done | congruence].
- by rewrite list_lookup_alter_ne.
Qed.

(** Filling a table row by row with a body that writes cell [(i, j)]
  from cells already written computes the recurrence [F]. *)
Section fill.
Variables (len1 len2 : nat) (F : nat → nat → Z).
Variable body : nat → nat → matrix → matrix.

Hypothesis body_ok : ∀ m i j,
  1 ≤ i ≤ len1 → 1 ≤ j ≤ len2 → filled len1 len2 F m i j →
  dims (body i j m) (len1 + 1) (len2 + 1) ∧
  mget (body i j m) i j = F i j ∧
  ∀ i' j', (i', j') ≠ (i, j) → mget (body i j m) i' j' = mget m i' j'.

Lemma fill_row m i :
  1 ≤ i ≤ len1 → filled len1 len2 F m i 1 →
  filled len1 len2 F (for_loop 1 len2 (body i) m) (S i) 1.
Proof.
  intros Hi H0.
  assert (filled len1 len2 F (for_loop 1 len2 (body i) m) i (1 + len2)) as [Hd Hf].
  { apply (for_loop_inv (λ j m, filled len1 len2 F m i j)); [done |].
    intros j m' Hj Hm'.
    destruct (body_ok m' i j) as (Hd & Hnew & Hold); [lia | lia | done |].
    split; [done |].
    intros i' j' Hi' Hj' Hcase.
    destruct (decide ((i', j') = (i, j))) as [[= -> ->]|Hne]; [done |].
    rewrite Hold by done. apply Hm'; [done | done |].
    destruct Hcase as [?|[?|[?|[-> ?]]]]; auto.
    right; right; right. split; [done |].
    assert (j' ≠ j) by congruence. lia. }
  split; [done |].
  intros i' j' Hi' Hj' Hcase. apply Hf; [done | done |]. lia.
Qed.

Lemma fill_ok m :
  filled len1 len2 F m 1 1 →
  filled len1 len2 F (for_loop 1 len1 (λ i m, for_loop 1 len2 (body i) m) m)
         (S len1) 1.
Proof.
  intros H0.
  apply (for_loop_inv (λ i m, filled len1 len2 F m i 1)); [done |].
  intros i m' Hi Hm'. apply fill_row; [lia | done].
Qed.
End fill.

(** ** Longest common subsequence *)

Lemma lcs_rec_eq a b i j :
  lcs_rec a b (S i) (S j) =
  if strict_eq (a !! i) (b !! j)
  then S (lcs_rec a b i j)
  else Nat.max (lcs_rec a b i (S j)) (lcs_rec a b (S i) j).
Proof. reflexivity. Qed.

Lemma lcs_rec_0_r a b i : lcs_rec a b i 0 = 0.
Proof. by destruct i. Qed.

Lemma lcs_rec_0_l a b j : lcs_rec a b 0 j = 0.
Proof. by destruct j. Qed.

Lemma lcs_table_filled a b :
  filled (length a) (length b) (λ i j, Z.of_nat (lcs_rec a b i j))
         (lcs_table a b) (S (length a)) 1.
Proof.
  unfold lcs_table.
  apply (fill_ok _ _ _ (λ i j dp,
    if strict_eq (a !! (i - 1)) (b !! (j - 1))
    then mset dp i j (mget dp (i - 1) (j - 1) + 1)
    else mset dp i j (Z.max (mget dp (i - 1) j) (mget dp i (j - 1))))).
  - intros m i j Hi Hj [Hd Hf].
    destruct i as [|i]; [lia |]. destruct j as [|j]; [lia |].
    replace (S i - 1) with i by lia. replace (S j - 1) with j by lia.
    rewrite lcs_rec_eq.
    destruct (strict_eq (a !! i) (b !! j)).
    + split; [by apply dims_mset |]. split; [| intros; by apply mget_mset_ne].
      rewrite (mget_mset_eq _ _ _ _ _ _ Hd) by lia.
      rewrite Hf by lia. lia.
    + split; [by apply dims_mset |]. split; [| intros; by apply mget_mset_ne].
      rewrite (mget_mset_eq _ _ _ _ _ _ Hd) by lia.
      rewrite !Hf by lia. lia.
  - split; [apply dims_new_matrix |].
    intros i j _ _ Hc. rewrite mget_new_matrix.
    destruct Hc as [->|[->|[?|[? ?]]]]; try lia.
    + by rewrite lcs_rec_0_l.
    + by rewrite lcs_rec_0_r.
    + assert (i = 0) as -> by lia. by rewrite lcs_rec_0_l.
    + assert (j = 0) as -> by lia. by rewrite lcs_rec_0_r.
Qed.

Lemma sublist_snoc_inv (s l : jsstring) x :
  s `sublist_of` l ++ [x] →
  s `sublist_of` l ∨ ∃ s', s = s' ++ [x] ∧ s' `sublist_of` l.
Proof.
  intros (s1 & s2 & -> & H1 & H2)%sublist_app_r.
  apply sublist_cons_r in H2 as [H2|(s3 & -> & H3)].
  - apply sublist_nil_r in H2 as ->. left. by rewrite app_nil_r.
  - apply sublist_nil_r in H3 as ->. right. eauto.
Qed.

Lemma common_subseq_snoc_r s a b y :
  common_subseq s a (b ++ [y]) →
  common_subseq s a b ∨
  ∃ s', s = s' ++ [y] ∧ common_subseq s' a b.
Proof.
  intros [Ha Hb]. apply sublist_snoc_inv in Hb as [Hb|(s' & -> & Hb)].
  - by left.
  - right. exists s'. repeat split; [| done].
    etrans; [| exact Ha]. by apply sublist_inserts_r.
Qed.

Lemma common_subseq_sym s a b : common_subseq s a b → common_subseq s b a.
Proof. intros [? ?]. by split. Qed.

Lemma is_lcs_length_sym a b n : is_lcs_length a b n → is_lcs_length b a n.
Proof.
  intros [(s & Hs & Hl) Hmax]. split.
  - exists s. auto using common_subseq_sym.
  - intros s' Hs'. apply Hmax. by apply common_subseq_sym.
Qed.

Lemma is_lcs_length_unique a b n n' :
  is_lcs_length a b n → is_lcs_length a b n' → n = n'.
Proof.
  intros [(s & Hs & Hl) Hmax] [(s' & Hs' & Hl') Hmax'].
  apply Hmax' in Hs. apply Hmax in Hs'. lia.
Qed.

(** Appending one unit to either string lengthens the longest common
    subsequence by at most one. *)
Lemma is_lcs_length_snoc_r a b y n n' :
  is_lcs_length a b n → is_lcs_length a (b ++ [y]) n' → n' ≤ S n.
Proof.
  intros [_ Hmax] [(s & Hs & <-) _].
  apply common_subseq_snoc_r in Hs as [Hs|(s' & -> & Hs)].
  - apply Hmax in Hs. lia.
  - apply Hmax in Hs. rewrite length_app. simpl. lia.
Qed.

Lemma is_lcs_length_snoc a b x y n nl nu :
  is_lcs_length a b n →
  is_lcs_length a (b ++ [y]) nu →
  is_lcs_length (a ++ [x]) b nl →
  is_lcs_length (a ++ [x]) (b ++ [y])
    (if decide (x = y) then S n else Nat.max nu nl).
Proof.
  intros Hn Hnu Hnl.
  assert (nu ≤ S n) by eauto using is_lcs_length_snoc_r.
  assert (nl ≤ S n).
  { apply is_lcs_length_sym in Hn, Hnl. eauto using is_lcs_length_snoc_r. }
  assert (∀ s, common_subseq s (a ++ [x]) (b ++ [y]) →
            length s ≤ Nat.max nu nl ∨
            (x = y ∧ length s ≤ S n)) as Hup.
  { intros s Hs.
    destruct (common_subseq_snoc_r _ _ _ _ Hs) as [Hs'|(s' & -> & Hs')].
    { left. apply Hnl in Hs'. lia. }
    apply common_subseq_sym in Hs.
    destruct (common_subseq_snoc_r _ _ _ _ Hs) as [Hs2|(s2 & Heq & Hs2)].
    { left. apply common_subseq_sym, Hnu in Hs2. lia. }
    apply app_inj_tail in Heq as [-> ->].
    right. split; [done |].
    destruct Hn as [_ Hmax].
    assert (common_subseq s2 a b) as Hc by (split; [apply Hs2 | apply Hs']).
    apply Hmax in Hc. rewrite length_app. simpl. lia. }
  split.
  - case_decide as Hxy.
    + subst y. destruct Hn as [(s & [Hsa Hsb] & Hl) _].
      exists (s ++ [x]). split; [split; by apply sublist_app |].
      rewrite length_app. simpl. lia.
    + destruct (Nat.max_spec nu nl) as [[_ ->]|[_ ->]].
      * destruct Hnl as [(s & [Hsa Hsb] & Hl) _].
        exists s. split; [split |]; [done | by apply sublist_inserts_r | done].
      * destruct Hnu as [(s & [Hsa Hsb] & Hl) _].
        exists s. split; [split |]; [by apply sublist_inserts_r | done | done].
  - intros s Hs. destruct (Hup s Hs) as [?|[-> ?]].
    + case_decide; lia.
    + by rewrite decide_True.
Qed.

Lemma is_lcs_length_nil_l b : is_lcs_length [] b 0.
Proof.
  split.
  - exists []. repeat split; [done | apply sublist_nil_l].
  - intros s [Hs _]. by apply sublist_nil_r in Hs as ->.
Qed.

(** The recurrence computes the length of a longest common subsequence
    of the two prefixes. *)
Lemma lcs_rec_spec a b i j :
  i ≤ length a → j ≤ length b →
  is_lcs_length (take i a) (take j b) (lcs_rec a b i j).
Proof.
  revert j. induction i as [|i IHi]; intros j Hi Hj.
  { rewrite lcs_rec_0_l. apply is_lcs_length_nil_l. }
  induction j as [|j IHj].
  { rewrite lcs_rec_0_r. apply is_lcs_length_sym, is_lcs_length_nil_l. }
  destruct (lookup_lt_is_Some_2 a i) as [x Hx]; [lia |].
  destruct (lookup_lt_is_Some_2 b j) as [y Hy]; [lia |].
  rewrite lcs_rec_eq, (take_S_r a i x), (take_S_r b j y) by done.
  assert (H1 := IHi j ltac:(lia) ltac:(lia)).
  assert (H2 := IHi (S j) ltac:(lia) ltac:(lia)).
  rewrite (take_S_r b j y) in H2 by done.
  assert (H3 := IHj ltac:(lia)).
  rewrite (take_S_r a i x) in H3 by done.
  pose proof (is_lcs_length_snoc _ _ x y _ _ _ H1 H2 H3) as Hs.
  unfold strict_eq. rewrite Hx, Hy.
  destruct (decide (x = y)) as [->|Hne].
  - by rewrite bool_decide_eq_true_2.
  - rewrite bool_decide_eq_false_2 by congruence. done.
Qed.

(** C1 (as stated): the table of the longest-common-subsequence metric
    does not hold index values in its row 0 and column 0; for "ABCDGH" and
    "AEDFHR" cell (1, 0) holds 0. *)
Lemma lcs_table_borders_counterexample : ¬ lcs_table_as_stated.
Proof.
  intros H.
  destruct (H (str "ABCDGH") (str "AEDFHR") 1 0) as (_ & H1 & _);
    [vm_compute; lia | vm_compute; lia |].
  vm_compute in H1. discriminate.
Qed.

Lemma lcs_table_cell a b i j :
  i ≤ length a → j ≤ length b →
  mget (lcs_table a b) i j = Z.of_nat (lcs_rec a b i j).
Proof.
  intros Hi Hj. destruct (lcs_table_filled a b) as [_ Hf].
  apply Hf; [done | done | lia].
Qed.

Lemma longestCommonSubsequence_eq a b :
  longestCommonSubsequence a b =
  (Z.max (len a) (len b) - Z.of_nat (lcs_rec a b (length a) (length b)))%Z.
Proof.
  unfold longestCommonSubsequence, len.
  destruct (bool_decide_reflect (length a = 0)) as [Ha|Ha]; simpl.
  { rewrite Ha, lcs_rec_0_l. lia. }
  destruct (bool_decide_reflect (length b = 0)) as [Hb|Hb]; simpl.
  { rewrite Hb, lcs_rec_0_r. lia. }
  by rewrite lcs_table_cell.
Qed.

Lemma lcs_rec_full a b :
  is_lcs_length a b (lcs_rec a b (length a) (length b)).
Proof.
  pose proof (lcs_rec_spec a b (length a) (length b)) as Hs.
  rewrite !firstn_all in Hs. by apply Hs.
Qed.

(** C1 (amended): for all strings the metric returns
    [max(len a, len b)] minus the length of a longest common subsequence;
    the table of the dynamic program has [len a + 1] rows of [len b + 1]
    cells, its row 0 and column 0 hold 0, and cell [(i, j)] holds the
    length of a longest common subsequence of the prefixes of lengths
    [i] and [j]; the distance of "ABCDGH" and "AEDFHR" is 3. *)
Theorem lcs_distance_correct (a b : jsstring) (i j : nat) :
  i ≤ length a → j ≤ length b →
  (∃ n, is_lcs_length a b n ∧
        longestCommonSubsequence a b = (Z.max (len a) (len b) - Z.of_nat n)%Z) ∧
  dims (lcs_table a b) (length a + 1) (length b + 1) ∧
  mget (lcs_table a b) i 0 = 0%Z ∧
  mget (lcs_table a b) 0 j = 0%Z ∧
  (∃ n, is_lcs_length (take i a) (take j b) n ∧
        mget (lcs_table a b) i j = Z.of_nat n) ∧
  longestCommonSubsequence (str "ABCDGH") (str "AEDFHR") = 3%Z.
Proof.
  intros Hi Hj.
  split; [| split; [| split; [| split; [| split]]]].
  - exists (lcs_rec a b (length a) (length b)).
    split; [apply lcs_rec_full | apply longestCommonSubsequence_eq].
  - apply lcs_table_filled.
  - rewrite lcs_table_cell by lia. by rewrite lcs_rec_0_r.
  - rewrite lcs_table_cell by lia. by rewrite lcs_rec_0_l.
  - exists (lcs_rec a b i j).
    split; [by apply lcs_rec_spec | by apply lcs_table_cell].
  - by vm_compute.
Qed.

Lemma lcs_distance_correct_witness :
  mget (lcs_table (str "AB") (str "CB")) 2 2 = 1%Z ∧
  mget (lcs_table (str "AB") (str "CB")) 2 0 = 0%Z.
Proof.
  destruct (lcs_distance_correct (str "AB") (str "CB") 2 2)
    as (_ & _ & H0 & _); [simpl; lia | simpl; lia |].
  split; [by vm_compute | exact H0].
Defined.

(** ** Hamming distance *)

Lemma hamming_loop (x y : jsstring) k n d :
  length x = k + n → length y = k + n →
  for_loop k n (λ i distance,
    if negb (strict_eq (x !! i) (y !! i)) then (distance + 1)%Z else distance) d
  = (d + Z.of_nat (differing_positions (drop k x) (drop k y)))%Z.
Proof.
  revert k d. induction n as [|n IH]; intros k d Hx Hy; simpl.
  - rewrite (drop_ge x), (drop_ge y) by lia. simpl. lia.
  - destruct (lookup_lt_is_Some_2 x k) as [c Hc]; [lia |].
    destruct (lookup_lt_is_Some_2 y k) as [c' Hc']; [lia |].
    rewrite IH by lia.
    rewrite (drop_S x c k Hc), (drop_S y c' k Hc'). simpl.
    unfold strict_eq. rewrite Hc, Hc'.
    destruct (decide (c = c')) as [->|Hne].
    + rewrite bool_decide_eq_true_2 by done. simpl. lia.
    + rewrite bool_decide_eq_false_2 by congruence. simpl. lia.
Qed.

Lemma length_padEnd s n c : length (padEnd s n c) = Nat.max (length s) n.
Proof. unfold padEnd. rewrite length_app, length_replicate. lia. Qed.

Lemma hammingDistance_eq a b :
  hammingDistance a b =
  Z.of_nat (differing_positions
    (padEnd a (Nat.max (length a) (length b)) SPACE)
    (padEnd b (Nat.max (length a) (length b)) SPACE)).
Proof.
  unfold hammingDistance.
  rewrite hamming_loop; [by rewrite !drop_0 | |];
    rewrite length_padEnd; lia.
Qed.

Lemma differing_positions_refl x : differing_positions x x = 0.
Proof. induction x as [|c x IH]; simpl; [done |]. by rewrite decide_True. Qed.

Lemma differing_positions_sym x y :
  differing_positions x y = differing_positions y x.
Proof.
  revert y. induction x as [|c x IH]; intros [|d y]; simpl; try done.
  rewrite IH. destruct (decide (c = d)), (decide (d = c)); congruence.
Qed.

(** C5: the metric is the number of positions at which the two strings
    differ once the shorter is padded on the right with spaces to the
    length of the longer; "abc"/"abd" gives 1 and "ab"/"abcd" gives 2. *)
Theorem hamming_counts_padded_differences (a b : jsstring) :
  let n := Nat.max (length a) (length b) in
  let pa := a ++ replicate (n - length a) SPACE in
  let pb := b ++ replicate (n - length b) SPACE in
  length pa = n ∧ length pb = n ∧
  hammingDistance a b = Z.of_nat (differing_positions pa pb) ∧
  hammingDistance (str "abc") (str "abd") = 1%Z ∧
  hammingDistance (str "ab") (str "abcd") = 2%Z ∧
  padEnd (str "ab") 4 SPACE = str "ab  ".
Proof.
  intros n pa pb. repeat split.
  - subst pa n. rewrite length_app, length_replicate. lia.
  - subst pb n. rewrite length_app, length_replicate. lia.
  - apply hammingDistance_eq.
Qed.

(** C10: a string and the same string followed by [k] spaces are at
    Hamming distance 0, in either order, although they are different
    strings as soon as [k] is positive. *)
Theorem hamming_ignores_trailing_spaces (a : jsstring) (k : nat) :
  hammingDistance a (a ++ replicate k SPACE) = 0%Z ∧
  hammingDistance (a ++ replicate k SPACE) a = 0%Z ∧
  a ≠ a ++ replicate (S k) SPACE.
Proof.
  assert (∀ n, n = length a + k →
    padEnd a n SPACE = a ++ replicate k SPACE ∧
    padEnd (a ++ replicate k SPACE) n SPACE = a ++ replicate k SPACE)
    as Hpad.
  { intros n ->. unfold padEnd. rewrite length_app, length_replicate.
    replace (length a + k - length a) with k by lia.
    replace (length a + k - (length a + k)) with 0 by lia.
    simpl. by rewrite app_nil_r. }
  repeat split.
  - rewrite hammingDistance_eq, length_app, length_replicate.
    destruct (Hpad (Nat.max (length a) (length a + k))) as [-> ->]; [lia |].
    by rewrite differing_positions_refl.
  - rewrite hammingDistance_eq, length_app, length_replicate.
    destruct (Hpad (Nat.max (length a + k) (length a))) as [-> ->]; [lia |].
    by rewrite differing_positions_refl.
  - intros Heq. apply (f_equal length) in Heq.
    rewrite length_app, length_replicate in Heq. lia.
Qed.

(** ** Signed differences *)

(** C8: exchanging the arguments of a signed difference metric negates
    its value. *)
Theorem signed_metrics_antisymmetric (a b : jsstring) :
  calculateAdditions a b = (- calculateAdditions b a)%Z ∧
  lineCountDifference a b = (- lineCountDifference b a)%Z ∧
  wordCountDifference a b = (- wordCountDifference b a)%Z.
Proof.
  unfold calculateAdditions, lineCountDifference, wordCountDifference.
  repeat split; lia.
Qed.

(** ** Line count *)

Lemma split_on_nonempty sep s : split_on sep s ≠ [].
Proof.
  destruct s as [|c s]; simpl; [done |].
  case_decide; [done |]. by destruct (split_on sep s).
Qed.

Lemma join_split_on sep s : join_with sep (split_on sep s) = s.
Proof.
  induction s as [|c s IH]; simpl; [done |].
  pose proof (split_on_nonempty sep s) as Hne.
  case_decide as Hc.
  - subst c. destruct (split_on sep s) as [|seg rest] eqn:E; [done |].
    simpl. simpl in IH. by rewrite IH.
  - destruct (split_on sep s) as [|seg rest] eqn:E; [done |].
    destruct rest as [|seg' rest]; simpl in *; by rewrite <-IH.
Qed.

Lemma split_on_no_sep sep s : Forall (λ seg, sep ∉ seg) (split_on sep s).
Proof.
  induction s as [|c s IH]; simpl.
  - constructor; [apply not_elem_of_nil | constructor].
  - case_decide as Hc.
    + constructor; [apply not_elem_of_nil | done].
    + destruct (split_on sep s) as [|seg rest]; [| inversion_clear IH].
      * repeat constructor. rewrite list_elem_of_singleton. congruence.
      * constructor; [| done]. rewrite elem_of_cons. intros [?|?]; congruence.
Qed.

Lemma length_split_on sep s :
  length (split_on sep s) = S (length (filter (λ c, c = sep) s)).
Proof.
  induction s as [|c s IH]; simpl; [done |].
  rewrite filter_cons. case_decide as Hc; simpl.
  - by rewrite IH.
  - rewrite <-IH. destruct (split_on sep s) eqn:E; [| done].
    by destruct (split_on_nonempty sep s).
Qed.

Lemma split_on_snoc_sep sep s :
  split_on sep (s ++ [sep]) = split_on sep s ++ [[]].
Proof.
  induction s as [|c s IH]; simpl.
  - by rewrite decide_True.
  - case_decide; rewrite IH; [done |].
    destruct (split_on sep s) eqn:E; [| done].
    by destruct (split_on_nonempty sep s).
Qed.

(** C9: the metric is the number of newline-delimited segments of [b]
    minus that of [a]; the segments of [s] are the pieces that, joined by
    newlines, give [s] back and contain no newline, so there is one more
    than there are newlines and a trailing newline adds an empty last
    segment; "line1\nline2" against "line1\nline2\nline3" gives 1. *)
Theorem line_count_difference_counts_segments (a b s : jsstring) :
  lineCountDifference a b =
    (Z.of_nat (length (split_on NEWLINE b)) -
     Z.of_nat (length (split_on NEWLINE a)))%Z ∧
  join_with NEWLINE (split_on NEWLINE s) = s ∧
  Forall (λ seg, NEWLINE ∉ seg) (split_on NEWLINE s) ∧
  length (split_on NEWLINE s) = S (length (filter (λ c, c = NEWLINE) s)) ∧
  split_on NEWLINE (s ++ [NEWLINE]) = split_on NEWLINE s ++ [[]] ∧
  lineCountDifference (str "line1" ++ NEWLINE :: str "line2")
    (str "line1" ++ NEWLINE :: str "line2" ++ NEWLINE :: str "line3") = 1%Z.
Proof.
  split; [done |].
  split; [apply join_split_on |].
  split; [apply split_on_no_sep |].
  split; [apply length_split_on |].
  split; [apply split_on_snoc_sep | by vm_compute].
Qed.

(** ** Damerau-Levenshtein distance *)

Lemma damerau_recurrence_0_l a b j : damerau_recurrence a b 0 j = Z.of_nat j.
Proof. by destruct j. Qed.

Lemma damerau_recurrence_0_r a b i : damerau_recurrence a b i 0 = Z.of_nat i.
Proof. by destruct i. Qed.

Lemma damerau_recurrence_S a b i j :
  damerau_recurrence a b (S i) (S j) =
  let cost := if strict_eq (a !! i) (b !! j) then 0%Z else 1%Z in
  let levenshtein_step :=
    Z.min (Z.min (damerau_recurrence a b i (S j) + 1)
                 (damerau_recurrence a b (S i) j + 1))
          (damerau_recurrence a b i j + cost) in
  if bool_decide (0 < i) && bool_decide (0 < j) &&
     strict_eq (a !! i) (b !! (j - 1)) && strict_eq (a !! (i - 1)) (b !! j)
  then Z.min levenshtein_step
             (damerau_recurrence a b (i - 1) (j - 1) + cost)
  else levenshtein_step.
Proof.
  destruct i as [|i], j as [|j]; try reflexivity.
  replace (S i - 1) with i by lia. replace (S j - 1) with j by lia.
  reflexivity.
Qed.

Lemma border_loops_filled len1 len2 F :
  (∀ j, F 0 j = Z.of_nat j) → (∀ i, F i 0 = Z.of_nat i) →
  filled len1 len2 F
    (for_loop 0 (len2 + 1) (λ j matrix, mset matrix 0 j (Z.of_nat j))
       (for_loop 0 (len1 + 1) (λ i matrix, mset matrix i 0 (Z.of_nat i))
          (new_matrix (len1 + 1) (len2 + 1)))) 1 1.
Proof.
  intros HF0 HF1.
  set (m1 := for_loop 0 (len1 + 1) _ _).
  assert (dims m1 (len1 + 1) (len2 + 1) ∧
          ∀ i, i < 0 + (len1 + 1) → mget m1 i 0 = Z.of_nat i) as [Hd1 Hc1].
  { apply (for_loop_inv (λ k m, dims m (len1 + 1) (len2 + 1) ∧
      ∀ i, i < k → mget m i 0 = Z.of_nat i)).
    - split; [apply dims_new_matrix | lia].
    - intros k m Hk [Hd Hm]. split; [by apply dims_mset |].
      intros i Hi. destruct (decide (i = k)) as [->|Hne].
      + rewrite (mget_mset_eq _ _ _ _ _ _ Hd); [done | lia | lia].
      + rewrite mget_mset_ne by congruence. apply Hm. lia. }
  set (m2 := for_loop 0 (len2 + 1) _ _).
  assert (dims m2 (len1 + 1) (len2 + 1) ∧
          (∀ i, i < len1 + 1 → mget m2 i 0 = Z.of_nat i) ∧
          ∀ j, j < 0 + (len2 + 1) → mget m2 0 j = Z.of_nat j)
    as (Hd2 & Hc2 & Hr2).
  { apply (for_loop_inv (λ k m, dims m (len1 + 1) (len2 + 1) ∧
      (∀ i, i < len1 + 1 → mget m i 0 = Z.of_nat i) ∧
      ∀ j, j < k → mget m 0 j = Z.of_nat j)).
    - split; [done |]. split; [done | lia].
    - intros k m Hk (Hd & Hc & Hr). split; [by apply dims_mset |]. split.
      + intros i Hi. destruct (decide ((i, 0) = (0, k))) as [[= -> <-]|Hne].
        * rewrite (mget_mset_eq _ _ _ _ _ _ Hd); [done | lia | lia].
        * rewrite mget_mset_ne by done. by apply Hc.
      + intros j Hj. destruct (decide (j = k)) as [->|Hne].
        * rewrite (mget_mset_eq _ _ _ _ _ _ Hd); [done | lia | lia].
        * rewrite mget_mset_ne by congruence. apply Hr. lia. }
  split; [done |].
  intros i j Hi Hj Hcase.
  assert (i = 0 ∨ j = 0) as [->| ->] by lia.
  - rewrite HF0. apply Hr2. lia.
  - rewrite HF1. apply Hc2. lia.
Qed.

Lemma dl_table_filled a b :
  filled (length a) (length b) (damerau_recurrence a b)
         (dl_table a b) (S (length a)) 1.
Proof.
  unfold dl_table.
  apply (fill_ok _ _ _ (λ i j matrix,
    let cost := if strict_eq (a !! (i - 1)) (b !! (j - 1)) then 0%Z else 1%Z in
    let matrix :=
      mset matrix i j
        (Z.min (Z.min (mget matrix (i - 1) j + 1) (mget matrix i (j - 1) + 1))
               (mget matrix (i - 1) (j - 1) + cost)) in
    if bool_decide (1 < i) && bool_decide (1 < j) &&
       strict_eq (a !! (i - 1)) (b !! (j - 2)) && strict_eq (a !! (i - 2)) (b !! (j - 1))
    then mset matrix i j
           (Z.min (mget matrix i j) (mget matrix (i - 2) (j - 2) + cost))
    else matrix)).
  - intros m i j Hi Hj [Hd Hf].
    destruct i as [|i]; [lia |]. destruct j as [|j]; [lia |].
    rewrite damerau_recurrence_S. simpl.
    replace (i - 0) with i by lia. replace (j - 0) with j by lia.
    set (cost := if strict_eq (a !! i) (b !! j) then 0%Z else 1%Z).
    set (v1 := Z.min _ (_ + cost)).
    assert (v1 = Z.min (Z.min (damerau_recurrence a b i (S j) + 1)
                              (damerau_recurrence a b (S i) j + 1))
                       (damerau_recurrence a b i j + cost)) as Hv1.
    { subst v1. rewrite !Hf by lia. done. }
    assert (dims (mset m (S i) (S j) v1) (length a + 1) (length b + 1))
      as Hd1 by by apply dims_mset.
    replace (bool_decide (1 < S i)) with (bool_decide (0 < i))
      by (apply bool_decide_ext; lia).
    replace (bool_decide (1 < S j)) with (bool_decide (0 < j))
      by (apply bool_decide_ext; lia).
    destruct (bool_decide (0 < i) && bool_decide (0 < j) &&
              strict_eq (a !! i) (b !! (j - 1)) && strict_eq (a !! (i - 1)) (b !! j))
      eqn:Ht.
    + split; [by apply dims_mset |]. split.
      * rewrite (mget_mset_eq _ _ _ _ _ _ Hd1) by lia.
        rewrite (mget_mset_eq _ _ _ _ _ _ Hd) by lia.
        rewrite mget_mset_ne by (intros [= ? ?]; lia).
        rewrite Hf by lia. by rewrite Hv1.
      * intros i' j' Hne. by rewrite !mget_mset_ne.
    + split; [done |]. split.
      * by rewrite (mget_mset_eq _ _ _ _ _ _ Hd) by lia.
      * intros i' j' Hne. by rewrite mget_mset_ne.
  - apply border_loops_filled;
      [apply damerau_recurrence_0_l | apply damerau_recurrence_0_r].
Qed.

Lemma damerauLevenshtein_eq a b :
  damerauLevenshtein a b = damerau_recurrence a b (length a) (length b).
Proof.
  unfold damerauLevenshtein.
  destruct (bool_decide_reflect (length a = 0)) as [Ha|Ha].
  { by rewrite Ha, damerau_recurrence_0_l. }
  destruct (bool_decide_reflect (length b = 0)) as [Hb|Hb].
  { by rewrite Hb, damerau_recurrence_0_r. }
  destruct (dl_table_filled a b) as [_ Hf]. apply Hf; lia.
Qed.

(** C6: the metric is the value, at the two full lengths, of the dynamic
    program that extends unit-cost Levenshtein with the adjacent
    transposition option (two steps back on the diagonal plus the
    substitution cost, when the last two units are swapped); every cell
    of the table holds the value of that program, and "ab"/"ba" gives 1. *)
Theorem damerau_levenshtein_is_recurrence (a b : jsstring) (i j : nat) :
  i ≤ length a → j ≤ length b →
  damerauLevenshtein a b = damerau_recurrence a b (length a) (length b) ∧
  mget (dl_table a b) i j = damerau_recurrence a b i j ∧
  damerau_recurrence a b i 0 = Z.of_nat i ∧
  damerau_recurrence a b 0 j = Z.of_nat j ∧
  damerau_recurrence a b (S i) (S j) =
    (let cost := if strict_eq (a !! i) (b !! j) then 0%Z else 1%Z in
     let levenshtein_step :=
       Z.min (Z.min (damerau_recurrence a b i (S j) + 1)
                    (damerau_recurrence a b (S i) j + 1))
             (damerau_recurrence a b i j + cost) in
     if bool_decide (0 < i) && bool_decide (0 < j) &&
        strict_eq (a !! i) (b !! (j - 1)) && strict_eq (a !! (i - 1)) (b !! j)
     then Z.min levenshtein_step
                (damerau_recurrence a b (i - 1) (j - 1) + cost)
     else levenshtein_step) ∧
  damerauLevenshtein (str "ab") (str "ba") = 1%Z.
Proof.
  intros Hi Hj.
  split; [apply damerauLevenshtein_eq |].
  split; [destruct (dl_table_filled a b) as [_ Hf]; apply Hf; lia |].
  split; [apply damerau_recurrence_0_r |].
  split; [apply damerau_recurrence_0_l |].
  split; [apply damerau_recurrence_S | by vm_compute].
Qed.

Lemma damerau_levenshtein_is_recurrence_witness :
  damerauLevenshtein (str "ca") (str "abc") = 3%Z ∧
  mget (dl_table (str "ca") (str "abc")) 2 2 = 2%Z.
Proof.
  destruct (damerau_levenshtein_is_recurrence (str "ca") (str "abc") 2 2)
    as (H1 & H2 & _); [simpl; lia | simpl; lia |].
  split; [rewrite H1 | rewrite H2]; by vm_compute.
Defined.

(** ** Jaro-Winkler distance: the special cases *)

(** C4: identical strings are at distance 0; different strings one of
    which is empty are at distance 1; different strings for which the
    windowed matching scan finds no match are at distance 1; in
    particular the empty pair gives 0 and "x" against the empty string
    gives 1. *)
Theorem jaro_winkler_special_cases (a b : jsstring) :
  (a = b → jaroWinkler a b = Some 0%float) ∧
  (a ≠ b → a = [] ∨ b = [] → jaroWinkler a b = Some 1%float) ∧
  (a ≠ b → matches (find_matches a b) = 0 → jaroWinkler a b = Some 1%float) ∧
  jaroWinkler [] [] = Some 0%float ∧
  jaroWinkler (str "x") [] = Some 1%float.
Proof.
  unfold jaroWinkler. repeat split.
  - intros ->. by rewrite bool_decide_eq_true_2.
  - intros Hne Hempty. rewrite bool_decide_eq_false_2 by done.
    destruct Hempty as [-> | ->]; simpl; [done |].
    by rewrite orb_true_r.
  - intros Hne Hm. rewrite bool_decide_eq_false_2 by done.
    destruct (_ || _); [done |].
    by rewrite bool_decide_eq_true_2.
Qed.

Lemma jaro_winkler_special_cases_witness :
  jaroWinkler (str "ab") (str "ab") = Some 0%float ∧
  jaroWinkler [] (str "ab") = Some 1%float ∧
  jaroWinkler (str "ab") (str "cd") = Some 1%float.
Proof.
  destruct (jaro_winkler_special_cases (str "ab") (str "ab")) as (H1 & _).
  destruct (jaro_winkler_special_cases [] (str "ab")) as (_ & H2 & _).
  destruct (jaro_winkler_special_cases (str "ab") (str "cd")) as (_ & _ & H3 & _).
  split; [by apply H1 |].
  split; [apply H2; [done | by left] | apply H3; [done | by vm_compute]].
Defined.

(** ** Symmetry of the integer distances *)

Lemma strict_eq_sym x y : strict_eq x y = strict_eq y x.
Proof. unfold strict_eq. apply bool_decide_ext. split; congruence. Qed.

Lemma levenshtein_recurrence_0_l a b j :
  levenshtein_recurrence a b 0 j = Z.of_nat j.
Proof. by destruct j. Qed.

Lemma levenshtein_recurrence_0_r a b i :
  levenshtein_recurrence a b i 0 = Z.of_nat i.
Proof. by destruct i. Qed.

Lemma levenshtein_recurrence_sym a b i j :
  levenshtein_recurrence a b i j = levenshtein_recurrence b a j i.
Proof.
  revert j. induction i as [|i IHi]; intros j.
  { by rewrite levenshtein_recurrence_0_l, levenshtein_recurrence_0_r. }
  induction j as [|j IHj].
  { by rewrite levenshtein_recurrence_0_l, levenshtein_recurrence_0_r. }
  change (levenshtein_recurrence a b (S i) (S j)) with
    (Z.min (Z.min (levenshtein_recurrence a b i (S j) + 1)
                  (levenshtein_recurrence a b (S i) j + 1))
           (levenshtein_recurrence a b i j +
            if strict_eq (a !! i) (b !! j) then 0 else 1))%Z.
  change (levenshtein_recurrence b a (S j) (S i)) with
    (Z.min (Z.min (levenshtein_recurrence b a j (S i) + 1)
                  (levenshtein_recurrence b a (S j) i + 1))
           (levenshtein_recurrence b a j i +
            if strict_eq (b !! j) (a !! i) then 0 else 1))%Z.
  rewrite !IHi, IHj, (strict_eq_sym (b !! j)). lia.
Qed.

Lemma damerau_recurrence_sym a b n :
  ∀ i j, i + j ≤ n → damerau_recurrence a b i j = damerau_recurrence b a j i.
Proof.
  induction n as [|n IH]; intros i j Hn.
  { assert (i = 0) as -> by lia.
    by rewrite damerau_recurrence_0_l, damerau_recurrence_0_r. }
  destruct i as [|i].
  { by rewrite damerau_recurrence_0_l, damerau_recurrence_0_r. }
  destruct j as [|j].
  { by rewrite damerau_recurrence_0_l, damerau_recurrence_0_r. }
  rewrite !damerau_recurrence_S. cbv zeta.
  rewrite (IH i (S j)), (IH (S i) j), (IH i j), (IH (i - 1) (j - 1)) by lia.
  rewrite (strict_eq_sym (b !! j) (a !! i)), (strict_eq_sym (b !! j) (a !! (i - 1))),
    (strict_eq_sym (b !! (j - 1)) (a !! i)).
  destruct (bool_decide (0 < i)), (bool_decide (0 < j)),
    (strict_eq (a !! i) (b !! (j - 1))), (strict_eq (a !! (i - 1)) (b !! j)); simpl; lia.
Qed.

Lemma hammingDistance_sym a b : hammingDistance a b = hammingDistance b a.
Proof.
  rewrite !hammingDistance_eq, (Nat.max_comm (length b)).
  by rewrite differing_positions_sym.
Qed.

Lemma longestCommonSubsequence_sym a b :
  longestCommonSubsequence a b = longestCommonSubsequence b a.
Proof.
  rewrite !longestCommonSubsequence_eq.
  pose proof (lcs_rec_full a b) as Hn.
  pose proof (is_lcs_length_sym _ _ _ (lcs_rec_full b a)) as Hn'.
  rewrite (is_lcs_length_unique _ _ _ _ Hn Hn'). lia.
Qed.

(** ** Jaro-Winkler distance: the matching does not depend on the order
    of the arguments *)

Lemma in_window_sym w i j : in_window w i j → in_window w j i.
Proof. unfold in_window. lia. Qed.

Lemma candidate_sym a b w i j : candidate a b w i j → candidate b a w j i.
Proof.
  intros [Hw (c & Ha & Hb)]. split; [by apply in_window_sym | eauto].
Qed.

Lemma candidate_same_unit a b w i j : candidate a b w i j → a !! i = b !! j.
Proof. intros [_ (c & -> & ->)]. done. Qed.

Lemma greedy_matching_flip a b w M :
  greedy_matching a b w M → greedy_matching b a w (flip M).
Proof.
  intros [Hc Hf Hi Hr Hl Hm]. split; unfold flip.
  - intros j i HM. by apply candidate_sym, Hc.
  - intros j i i' H1 H2. by eapply Hi.
  - intros j j' i H1 H2. by eapply Hf.
  - intros j i i' HM. by apply Hl.
  - intros j i j' HM. by apply Hr.
  - intros j i Hcand. apply candidate_sym, Hm in Hcand. tauto.
Qed.

(** Two greedy matchings that agree below the anti-diagonal of [(i, j)]
    agree at [(i, j)]. *)
Lemma greedy_matching_step a b w M M' i j :
  greedy_matching a b w M → greedy_matching a b w M' →
  (∀ i' j', i' + j' < i + j → (M i' j' ↔ M' i' j')) →
  M i j → M' i j.
Proof.
  intros HM HM' IH Hij.
  pose proof (gm_candidate _ _ _ _ HM _ _ Hij) as Hc.
  pose proof (candidate_same_unit _ _ _ _ _ Hc) as Hu.
  destruct Hc as [Hw _]. unfold in_window in Hw.
  destruct (gm_maximal _ _ _ _ HM' i j) as [[j' Hj']|[i' Hi']].
  { by apply (gm_candidate _ _ _ _ HM). }
  - destruct (Nat.lt_trichotomy j' j) as [Hlt|[->|Hgt]]; [| done |].
    + apply IH in Hj'; [| lia].
      pose proof (gm_functional _ _ _ _ HM _ _ _ Hij Hj'). lia.
    + pose proof (candidate_same_unit _ _ _ _ _
        (gm_candidate _ _ _ _ HM' _ _ Hj')) as Hu'.
      destruct (gm_first_right _ _ _ _ HM' i j' j Hj' Hgt) as (i' & Hlt & Hi');
        [congruence | lia |].
      apply IH in Hi'; [| lia].
      pose proof (gm_injective _ _ _ _ HM _ _ _ Hij Hi'). lia.
  - destruct (Nat.lt_trichotomy i' i) as [Hlt|[->|Hgt]]; [| done |].
    + apply IH in Hi'; [| lia].
      pose proof (gm_injective _ _ _ _ HM _ _ _ Hij Hi'). lia.
    + pose proof (candidate_same_unit _ _ _ _ _
        (gm_candidate _ _ _ _ HM' _ _ Hi')) as Hu'.
      destruct (gm_first_left _ _ _ _ HM' i' j i Hi' Hgt) as (j' & Hlt & Hj');
        [congruence | lia |].
      apply IH in Hj'; [| lia].
      pose proof (gm_functional _ _ _ _ HM _ _ _ Hij Hj'). lia.
Qed.

Lemma greedy_matching_unique a b w M M' :
  greedy_matching a b w M → greedy_matching a b w M' →
  ∀ i j, M i j ↔ M' i j.
Proof.
  intros HM HM'.
  assert (∀ n i j, i + j < n → (M i j ↔ M' i j)) as Hall.
  { induction n as [|n IH]; intros i j Hn; [lia |].
    split.
    - apply (greedy_matching_step a b w M M'); [done | done |].
      intros i' j' Hlt. apply IH. lia.
    - apply (greedy_matching_step a b w M' M); [done | done |].
      intros i' j' Hlt. symmetry. apply IH. lia. }
  intros i j. apply (Hall (S (i + j))). lia.
Qed.

(** *** Floating-point addition commutes *)

Lemma SFadd_comm prec emax x y : SFadd prec emax x y = SFadd prec emax y x.
Proof.
  destruct x as [sx|sx| |sx mx ex], y as [sy|sy| |sy my ey]; simpl; try done.
  - by destruct sx, sy.
  - by destruct sx, sy.
  - by rewrite Z.min_comm, Z.add_comm.
Qed.

Lemma float_add_comm (x y : float) : (x + y)%float = (y + x)%float.
Proof.
  apply Prim2SF_inj. rewrite !FloatAxioms.add_spec. apply SFadd_comm.
Qed.

Lemma winkler_distance_sym len1 len2 m t p :
  winkler_distance len1 len2 m t p = winkler_distance len2 len1 m t p.
Proof.
  unfold winkler_distance.
  by rewrite (float_add_comm (float_of_nat m / float_of_nat len1)).
Qed.

Lemma prefix_loop_sym a b i n p : prefix_loop a b i n p = prefix_loop b a i n p.
Proof.
  revert i p. induction n as [|n IH]; intros i p; simpl; [done |].
  by rewrite strict_eq_sym, IH.
Qed.

(** *** The scan computes the greedy matching *)

Lemma first_match_Some a b flags2 i j0 n j :
  first_match a b flags2 i j0 n = Some j →
  j0 ≤ j < j0 + n ∧ flags2 !! j ≠ Some true ∧ a !! i = b !! j ∧
  ∀ j', j0 ≤ j' < j → flags2 !! j' = Some true ∨ a !! i ≠ b !! j'.
Proof.
  revert j0. induction n as [|n IH]; intros j0; simpl; [done |].
  destruct (bool_decide_reflect (flags2 !! j0 = Some true)) as [Hf|Hf]; simpl.
  { intros (Hr & ? & ? & Hbefore)%IH. repeat split; [lia | lia | done | done |].
    intros j' Hj'. destruct (decide (j' = j0)) as [->|?]; [by left |].
    apply Hbefore. lia. }
  unfold strict_eq. destruct (bool_decide_reflect (a !! i = b !! j0)) as [He|He]; simpl.
  { intros [= <-]. repeat split; [lia | lia | done | done |]. intros j'. lia. }
  intros (Hr & ? & ? & Hbefore)%IH. repeat split; [lia | lia | done | done |].
  intros j' Hj'. destruct (decide (j' = j0)) as [->|?]; [by right |].
  apply Hbefore. lia.
Qed.

Lemma first_match_None a b flags2 i j0 n :
  first_match a b flags2 i j0 n = None →
  ∀ j', j0 ≤ j' < j0 + n → flags2 !! j' = Some true ∨ a !! i ≠ b !! j'.
Proof.
  revert j0. induction n as [|n IH]; intros j0; simpl; [lia |].
  destruct (bool_decide_reflect (flags2 !! j0 = Some true)) as [Hf|Hf]; simpl.
  { intros Hn j' Hj'. destruct (decide (j' = j0)) as [->|?]; [by left |].
    apply (IH _ Hn). lia. }
  unfold strict_eq. destruct (bool_decide_reflect (a !! i = b !! j0)) as [He|He];
    simpl; [done |].
  intros Hn j' Hj'. destruct (decide (j' = j0)) as [->|?]; [by right |].
  apply (IH _ Hn). lia.
Qed.

(** The indices the inner loop visits are the positions of the window. *)
Lemma window_range (a b : jsstring) i j :
  Z.to_nat (window_start a b i) ≤ j <
    Z.to_nat (window_start a b i) +
    Z.to_nat (window_end a b i - window_start a b i) ↔
  in_window (matchWindow a b) i j ∧ j < length b.
Proof.
  unfold window_start, window_end, in_window, len.
  generalize (matchWindow a b). intros w. lia.
Qed.

Lemma count_true_replicate n : count_true (replicate n false) = 0.
Proof. unfold count_true. induction n as [|n IH]; simpl; [done |]. apply IH. Qed.

Lemma count_true_insert flags i :
  flags !! i = Some false → count_true (<[i := true]> flags) = S (count_true flags).
Proof.
  unfold count_true. revert i.
  induction flags as [|f flags IH]; intros [|i]; simpl; try done.
  - intros [= ->]. by rewrite !filter_cons.
  - intros Hi. rewrite !filter_cons. case_decide; simpl; by rewrite IH.
Qed.

Lemma lookup_flag_false (flags : list bool) i :
  i < length flags → flags !! i ≠ Some true → flags !! i = Some false.
Proof.
  intros Hi Hne. destruct (lookup_lt_is_Some_2 flags i Hi) as [[|] Hf]; congruence.
Qed.

Lemma flags_eq (l1 l2 : list bool) :
  length l1 = length l2 →
  (∀ i, l1 !! i = Some true ↔ l2 !! i = Some true) → l1 = l2.
Proof.
  intros Hlen Hiff. apply list_eq. intros i.
  destruct (decide (i < length l1)) as [Hi|Hi].
  - destruct (lookup_lt_is_Some_2 l1 i Hi) as [x Hx].
    destruct (lookup_lt_is_Some_2 l2 i ltac:(lia)) as [y Hy].
    rewrite Hx, Hy. specialize (Hiff i). rewrite Hx, Hy in Hiff.
    destruct x, y; try done.
    + destruct Hiff as [Hiff _]. by specialize (Hiff eq_refl).
    + destruct Hiff as [_ Hiff]. by specialize (Hiff eq_refl).
  - rewrite !lookup_ge_None_2; [done | lia | lia].
Qed.

Lemma scan_invariant_init a b w :
  scan_invariant a b w 0
    (MatchState (replicate (length a) false) (replicate (length b) false) 0)
    (λ _ _, False).
Proof.
  split; simpl; try done; try (by intros ? ? ? []); try (by intros ? ? []).
  - apply length_replicate.
  - apply length_replicate.
  - intros i. rewrite lookup_replicate. split; [by intros [? _] | by intros [? []]].
  - intros j. rewrite lookup_replicate. split; [by intros [? _] | by intros [? []]].
  - by rewrite count_true_replicate.
  - by rewrite count_true_replicate.
  - intros. lia.
Qed.

Lemma scan_invariant_step a b k st M :
  k < length a →
  scan_invariant a b (matchWindow a b) k st M →
  ∃ M', scan_invariant a b (matchWindow a b) (S k) (match_step a b k st) M'.
Proof.
  intros Hk HI. unfold match_step.
  destruct (lookup_lt_is_Some_2 a k Hk) as [c Hc].
  destruct HI as [Hl1 Hl2 Hf1 Hf2 Hbelow Hc1 Hc2 Hcand Hfun Hinj Hright Hleft Hmax].
  assert (∀ j', ¬ M k j') as Hfree1.
  { intros j' HM. apply Hbelow in HM. lia. }
  destruct (first_match a b (str2Matches st) k _ _) as [j|] eqn:Hfm.
  - apply first_match_Some in Hfm as (Hr & Hfree & Hunit & Hbefore).
    apply window_range in Hr as [Hw Hjb].
    assert (∀ i, ¬ M i j) as Hfree2.
    { intros i HM. apply Hfree, Hf2. eauto. }
    assert (∀ j', j' < j → b !! j' = b !! j →
      (Z.of_nat k - matchWindow a b ≤ Z.of_nat j')%Z → ∃ i', i' < k ∧ M i' j')
      as Hnew_right.
    { intros j' Hlt Hu Hlow.
      destruct (Hbefore j') as [Ht|Hne].
      - split; [| done].
        assert (in_window (matchWindow a b) k j' ∧ j' < length b) as Hin.
        { split; [unfold in_window in *; lia | lia]. }
        apply window_range in Hin. lia.
      - apply Hf2 in Ht as [i' Hi']. exists i'. split; [by eapply Hbelow | done].
      - congruence. }
    exists (λ i' j', M i' j' ∨ (i' = k ∧ j' = j)).
    split; simpl.
    + by rewrite length_insert.
    + by rewrite length_insert.
    + intros i. destruct (decide (i = k)) as [->|Hne].
      * rewrite list_lookup_insert_eq by lia. split; [eauto | done].
      * rewrite list_lookup_insert_ne by done. rewrite Hf1.
        split; intros [j' Hj']; exists j'; [by left | ].
        destruct Hj' as [?|[? _]]; [done | lia].
    + intros j0. destruct (decide (j0 = j)) as [->|Hne].
      * rewrite list_lookup_insert_eq by lia. split; [eauto | done].
      * rewrite list_lookup_insert_ne by done. rewrite Hf2.
        split; intros [i' Hi']; exists i'; [by left | ].
        destruct Hi' as [?|[_ ?]]; [done | lia].
    + intros i j0 [HM|[-> _]]; [apply Hbelow in HM |]; lia.
    + rewrite count_true_insert; [by rewrite Hc1 |].
      apply lookup_flag_false; [lia |]. rewrite Hf1. by intros [j' ?%Hfree1].
    + rewrite count_true_insert; [by rewrite Hc2 |].
      apply lookup_flag_false; [lia | done].
    + intros i j0 [HM|[-> ->]]; [by apply Hcand |].
      split; [done |]. exists c. split; [done | congruence].
    + intros i j1 j2 [H1|[-> ->]] [H2|[? ->]]; subst;
        [by eapply Hfun | by destruct (Hfree1 j1) | by destruct (Hfree1 j2) | done].
    + intros i1 i2 j0 [H1|[-> ->]] [H2|[-> ?]]; subst;
        [by eapply Hinj | by destruct (Hfree2 i1) | by destruct (Hfree2 i2) | done].
    + intros i j1 j' [HM|[-> ->]] Hlt Hu Hlow.
      * destruct (Hright i j1 j' HM Hlt Hu Hlow) as (i' & ? & ?). eauto.
      * destruct (Hnew_right j' Hlt Hu Hlow) as (i' & ? & ?). eauto.
    + intros i j1 i' [HM|[-> ->]] Hlt Hu Hlow.
      * destruct (Hleft i j1 i' HM Hlt Hu Hlow) as (j' & ? & ?). eauto.
      * assert (candidate a b (matchWindow a b) i' j) as Hci.
        { split; [unfold in_window in *; lia |].
          exists c. split; congruence. }
        destruct (Hmax i' j Hlt Hci) as [[j' Hj']|[i'' Hi'']];
          [| by destruct (Hfree2 i'')].
        exists j'. split; [| by left].
        destruct (Nat.lt_trichotomy j' j) as [?|[->|Hgt]];
          [done | by destruct (Hfree2 i') |].
        pose proof (candidate_same_unit _ _ _ _ _ (Hcand _ _ Hj')) as Hu'.
        destruct (Hright i' j' j Hj' Hgt) as (i'' & _ & Hi'');
          [congruence | unfold in_window in *; lia |].
        by destruct (Hfree2 i'').
    + intros i j0 Hi Hci. destruct (decide (i = k)) as [->|Hne].
      * left. exists j. by right.
      * destruct (Hmax i j0) as [[j' ?]|[i' ?]]; [lia | done | |]; eauto.
  - pose proof (first_match_None _ _ _ _ _ _ Hfm) as Hnone.
    exists M. split; try done.
    + intros i j HM. apply Hbelow in HM. lia.
    + intros i j0 Hi Hci. destruct (decide (i = k)) as [->|Hne].
      * right. apply Hf2.
        pose proof (candidate_same_unit _ _ _ _ _ Hci) as Hu.
        destruct Hci as [Hw (c' & _ & Hb)].
        destruct (Hnone j0) as [?|?]; [| done | done].
        apply window_range. split; [done |]. by eapply lookup_lt_Some.
      * apply Hmax; [lia | done].
Qed.

Lemma find_matches_invariant a b :
  ∃ M, scan_invariant a b (matchWindow a b) (length a) (find_matches a b) M.
Proof.
  unfold find_matches.
  apply (for_loop_inv
    (λ k st, ∃ M, scan_invariant a b (matchWindow a b) k st M)
    (match_step a b) 0 (length a)).
  - eexists. apply scan_invariant_init.
  - intros k st Hk [M HM]. apply (scan_invariant_step _ _ _ _ M); [lia | done].
Qed.

Lemma scan_invariant_greedy a b w st M :
  scan_invariant a b w (length a) st M → greedy_matching a b w M.
Proof.
  intros [Hl1 Hl2 Hf1 Hf2 Hbelow Hc1 Hc2 Hcand Hfun Hinj Hright Hleft Hmax].
  split; try done.
  intros i j Hc. apply Hmax; [| done].
  destruct Hc as [_ (c & Ha & _)]. by eapply lookup_lt_Some.
Qed.

Lemma matchWindow_sym a b : matchWindow a b = matchWindow b a.
Proof. unfold matchWindow. by rewrite Z.max_comm. Qed.

(** Scanning from the other string marks the same positions and counts
    the same number of matches. *)
Lemma find_matches_sym a b :
  str1Matches (find_matches b a) = str2Matches (find_matches a b) ∧
  str2Matches (find_matches b a) = str1Matches (find_matches a b) ∧
  matches (find_matches b a) = matches (find_matches a b).
Proof.
  destruct (find_matches_invariant a b) as [M HI].
  destruct (find_matches_invariant b a) as [M' HI'].
  rewrite (matchWindow_sym b a) in HI'.
  pose proof (scan_invariant_greedy _ _ _ _ _ HI) as HG.
  pose proof (greedy_matching_flip _ _ _ _ (scan_invariant_greedy _ _ _ _ _ HI'))
    as HG'.
  pose proof (greedy_matching_unique _ _ _ _ _ HG HG') as Huniq.
  unfold flip in Huniq.
  destruct HI as [Hl1 Hl2 Hf1 Hf2 _ Hc1 Hc2 _ _ _ _ _ _].
  destruct HI' as [Hl1' Hl2' Hf1' Hf2' _ Hc1' Hc2' _ _ _ _ _ _].
  assert (str1Matches (find_matches b a) = str2Matches (find_matches a b)) as E1.
  { apply flags_eq; [congruence |]. intros j. rewrite Hf1', Hf2.
    split; intros [i Hi]; exists i; by apply Huniq. }
  assert (str2Matches (find_matches b a) = str1Matches (find_matches a b)) as E2.
  { apply flags_eq; [congruence |]. intros i. rewrite Hf2', Hf1.
    split; intros [j Hj]; exists j; by apply Huniq. }
  split; [done |]. split; [done |].
  by rewrite Hc1', E1, <-Hc2.
Qed.

(** *** The transposition loop *)

Lemma count_true_cons f flags :
  count_true (f :: flags) = (if f then 1 else 0) + count_true flags.
Proof. unfold count_true. rewrite filter_cons. by destruct f. Qed.

Lemma skip_unmarked_spec rest k :
  0 < count_true rest →
  ∃ d, skip_unmarked rest k = Some (k + d) ∧
       rest !! d = Some true ∧
       count_true (drop (S d) rest) = count_true rest - 1 ∧
       ∀ s : jsstring, marked s rest = marked (drop d s) (drop d rest).
Proof.
  revert k. induction rest as [|f rest IH]; intros k; [by cbv; lia |].
  rewrite count_true_cons. destruct f; simpl.
  - intros _. exists 0. rewrite Nat.add_0_r.
    split; [done |]. split; [done |]. split; [rewrite drop_0; lia |].
    intros s. by rewrite !drop_0.
  - intros Hpos. destruct (IH (S k) Hpos) as (d & Hs & Hd & Hcnt & Hm).
    exists (S d). rewrite Hs.
    split; [f_equal; lia |]. split; [done |]. split; [done |].
    intros [|c s]; simpl; [by destruct (drop d rest) | apply Hm].
Qed.

Lemma transposition_loop a b st n :
  length (str1Matches st) = length a →
  length (str2Matches st) = length b →
  ∀ i k t,
    length a = i + n →
    count_true (drop i (str1Matches st)) ≤ count_true (drop k (str2Matches st)) →
    ∃ k', for_loop i n (λ i kt, kt ≫= transposition_step a b st i) (Some (k, t))
          = Some (k', t + differing_positions
                          (marked (drop i a) (drop i (str1Matches st)))
                          (marked (drop k b) (drop k (str2Matches st)))).
Proof.
  intros Hl1 Hl2. induction n as [|n IH]; intros i k t Hlen Hcnt; simpl.
  { exists k. rewrite (drop_ge a) by lia. simpl. f_equal. f_equal. lia. }
  destruct (lookup_lt_is_Some_2 a i) as [c Hc]; [lia |].
  destruct (lookup_lt_is_Some_2 (str1Matches st) i) as [f Hf]; [lia |].
  rewrite (drop_S _ _ _ Hc), (drop_S _ _ _ Hf) in *.
  rewrite count_true_cons in Hcnt. rewrite Hf. destruct f; simpl.
  - destruct (skip_unmarked_spec (drop k (str2Matches st)) k)
      as (d & -> & Hd & Hcnt' & Hm); [lia |].
    rewrite lookup_drop in Hd. rewrite drop_drop in Hcnt'.
    simpl. rewrite (Hm (drop k b)), !drop_drop.
    destruct (lookup_lt_is_Some_2 b (k + d)) as [c' Hc'].
    { rewrite <-Hl2. by eapply lookup_lt_Some. }
    rewrite (drop_S _ _ _ Hc'), (drop_S _ _ _ Hd). simpl.
    edestruct (IH (S i) (S (k + d))) as [k' ->]; [lia | | ].
    { replace (k + S d) with (S (k + d)) in Hcnt' by lia. lia. }
    exists k'. f_equal. f_equal. unfold strict_eq. rewrite Hc, Hc'.
    destruct (decide (c = c')) as [->|Hne].
    + rewrite bool_decide_eq_true_2 by done. simpl. lia.
    + rewrite bool_decide_eq_false_2 by congruence. simpl. lia.
  - apply IH; [lia | lia].
Qed.

Lemma find_transpositions_eq a b st :
  length (str1Matches st) = length a →
  length (str2Matches st) = length b →
  count_true (str1Matches st) ≤ count_true (str2Matches st) →
  find_transpositions a b st =
  Some (differing_positions (marked a (str1Matches st))
                            (marked b (str2Matches st))).
Proof.
  intros Hl1 Hl2 Hcnt. unfold find_transpositions.
  destruct (transposition_loop a b st (length a) Hl1 Hl2 0 0 0) as [k' ->].
  - done.
  - by rewrite !drop_0.
  - by rewrite !drop_0.
Qed.

(** The metric terminates on every pair of strings. *)
Lemma jaroWinkler_total a b : is_Some (jaroWinkler a b).
Proof.
  unfold jaroWinkler.
  destruct (bool_decide (a = b)); [done |].
  destruct (_ || _); [done |].
  destruct (bool_decide (matches (find_matches a b) = 0)); [done |].
  destruct (find_matches_invariant a b) as [M HI].
  rewrite find_transpositions_eq; [done | apply HI | apply HI |].
  rewrite <-(si_count1 _ _ _ _ _ _ HI), <-(si_count2 _ _ _ _ _ _ HI). lia.
Qed.

Lemma jaroWinkler_sym a b : jaroWinkler a b = jaroWinkler b a.
Proof.
  unfold jaroWinkler.
  destruct (decide (a = b)) as [->|Hne]; [done |].
  rewrite (bool_decide_eq_false_2 (a = b)) by done.
  rewrite (bool_decide_eq_false_2 (b = a)) by congruence.
  rewrite (orb_comm (bool_decide (length b = 0))).
  destruct (_ || _); [done |].
  destruct (find_matches_sym a b) as (E1 & E2 & Em).
  destruct (find_matches_invariant a b) as [M HI].
  rewrite Em.
  destruct (bool_decide (matches (find_matches a b) = 0)); [done |].
  rewrite (find_transpositions_eq a b); [| apply HI | apply HI |]; last first.
  { rewrite <-(si_count1 _ _ _ _ _ _ HI), <-(si_count2 _ _ _ _ _ _ HI). lia. }
  rewrite (find_transpositions_eq b a); last first.
  { rewrite E1, E2.
    rewrite <-(si_count1 _ _ _ _ _ _ HI), <-(si_count2 _ _ _ _ _ _ HI). lia. }
  { rewrite E2. apply HI. }
  { rewrite E1. apply HI. }
  rewrite E1, E2. simpl.
  rewrite (differing_positions_sym (marked b _)).
  rewrite (Nat.min_comm (length b)), (prefix_loop_sym b a).
  by rewrite winkler_distance_sym.
Qed.

(** ** The driver *)

#[local] Opaque str.

Ltac io_unfold := unfold mbind, mret, io_mbind, io_mret, io_bind, io_ret.

Lemma io_bind_return {A B} (m : io A) (f : A → io B) t x :
  m = (t, Return x) → m ≫= f = (t ++ (f x).1, (f x).2).
Proof.
  intros ->. unfold mbind, io_mbind, io_bind. by destruct (f x).
Qed.

Lemma stdout_app t1 t2 : stdout (t1 ++ t2) = stdout t1 ++ stdout t2.
Proof. apply omap_app. Qed.

Lemma commands_app t1 t2 : commands (t1 ++ t2) = commands t1 ++ commands t2.
Proof. apply omap_app. Qed.

Lemma getFileFromBranch_returns execSync branch file verbose :
  ∃ t, getFileFromBranch execSync branch file verbose
         = (t, Return (fileContent execSync branch file)) ∧
       stdout t = [].
Proof.
  unfold getFileFromBranch, fileExistsInBranch, fileContent, exec.
  io_unfold.
  destruct (execSync (str "git cat-file -e " ++ branch ++ str ":" ++ file));
    destruct verbose; simpl;
    try destruct (execSync (str "git show " ++ branch ++ str ":" ++ file));
    simpl; eexists; split; reflexivity.
Qed.

Lemma getDistance_total distanceMeasure a b :
  is_Some (getDistance distanceMeasure a b).
Proof.
  unfold getDistance. repeat case_decide; try done.
  destruct (jaroWinkler_total a b) as [f ->]. done.
Qed.

Lemma report_loop_returns execSync branch1 branch2 distanceMeasure maxFileLen
    verbose (per_file : bool) files :
  ∀ total, ∃ t dists,
    row_values execSync distanceMeasure branch1 branch2 files dists ∧
    report_loop execSync branch1 branch2 distanceMeasure maxFileLen files total
      verbose per_file
      = (t, Return (foldl number_add total dists)) ∧
    stdout t =
      if per_file then zip_with (row_line maxFileLen) files dists else [].
Proof.
  induction files as [|file files IH]; intros total.
  { exists [], []. split; [constructor |]. split; [done | by destruct per_file]. }
  destruct (getFileFromBranch_returns execSync branch1 file verbose)
    as (tA & HA & HAo).
  destruct (getFileFromBranch_returns execSync branch2 file verbose)
    as (tB & HB & HBo).
  destruct (getDistance_total distanceMeasure
    (fileContent execSync branch1 file) (fileContent execSync branch2 file))
    as [dist Hdist].
  destruct (IH (number_add total dist)) as (t & dists & Hrows & Hloop & Hout).
  simpl. rewrite (io_bind_return _ _ _ _ HA). simpl.
  rewrite (io_bind_return _ _ _ _ HB). simpl.
  rewrite Hdist. rewrite Hloop.
  destruct per_file; simpl.
  - eexists _, (dist :: dists). split; [by constructor |].
    split; [reflexivity |].
    rewrite !stdout_app, HAo, HBo. simpl. by rewrite Hout.
  - eexists _, (dist :: dists). split; [by constructor |].
    split; [reflexivity |].
    rewrite !stdout_app, HAo, HBo. simpl. by rewrite Hout.
Qed.

Lemma report_returns execSync branch1 branch2 distanceMeasure files verbose
    (per_file : bool) :
  files ≠ [] →
  ∃ t dists,
    row_values execSync distanceMeasure branch1 branch2 files dists ∧
    report execSync branch1 branch2 distanceMeasure files verbose per_file
      = (t, Return tt) ∧
    stdout t = report_lines files dists per_file.
Proof.
  intros Hne. unfold report, report_lines.
  set (maxFileLen := if per_file then max_list (length <$> files) else 0).
  destruct (report_loop_returns execSync branch1 branch2 distanceMeasure
    maxFileLen verbose per_file files (NInt 0))
    as (t & dists & Hrows & Hloop & Hout).
  rewrite (io_bind_return _ _ _ _ Hloop).
  rewrite bool_decide_eq_false_2 by done.
  destruct per_file; simpl.
  - eexists _, dists. split; [done |]. split; [reflexivity |].
    rewrite !stdout_app, Hout. simpl. by rewrite <-app_assoc.
  - eexists _, dists. split; [done |]. split; [reflexivity |].
    rewrite !stdout_app, Hout. done.
Qed.

Lemma resolve_branches_stdout execSync branchArgs verbose :
  stdout (resolve_branches execSync branchArgs verbose).1 = [].
Proof.
  unfold resolve_branches, getCurrentBranch, exec.
  io_unfold.
  destruct branchArgs as [|arg1 [|arg2 [|arg3 rest]]]; destruct verbose;
    simpl; try done;
    destruct (execSync (str "git rev-parse --abbrev-ref HEAD")); done.
Qed.

Lemma getChangedFiles_stdout execSync branch1 branch2 verbose :
  stdout (getChangedFiles execSync branch1 branch2 verbose).1 = [].
Proof.
  unfold getChangedFiles, exec.
  io_unfold.
  destruct verbose; simpl;
    destruct (execSync (str "git diff --name-only " ++ branch1 ++ str ".." ++ branch2));
    done.
Qed.

Lemma foldl_number_add_int zs z :
  foldl number_add (NInt z) (NInt <$> zs) = NInt (z + sum_Z zs).
Proof.
  revert z. induction zs as [|x zs IH]; intros z; simpl.
  - f_equal. lia.
  - rewrite IH. f_equal. lia.
Qed.

(** C2 (as stated): with no changed file the run does not report an
    empty list of rows and a total of 0; it prints a notice instead. *)
Lemma aggregation_empty_counterexample : ¬ aggregation_as_stated.
Proof.
  intros H.
  destruct (H shell_no_change [str "main"; str "dev"] (str "levenshtein")
    (str "main") (str "dev") [] [] [Exec (str "git diff --name-only main..dev")])
    as (dists & Hrows & Hout & _);
    [by vm_compute | by vm_compute | by vm_compute | by vm_compute |].
  inversion Hrows; subst. vm_compute in Hout. discriminate.
Qed.

(** C2 (amended): a run that reaches the aggregation with a non-empty
    sequence of changed files ends normally and reports one row per file
    in the input order (when per-file listing is on) followed by the
    total, which is the sum of the row values taken in order, starting
    from 0 (the exact signed sum for integer-valued rows); with an empty
    sequence it prints "No changed files between branches." and exits with
    status 0, reporting neither rows nor a total. *)
Theorem aggregation_reports_rows_and_total
    (execSync : jsstring → jsstring + jsstring) (args : list jsstring)
    (distanceMeasure branch1 branch2 : jsstring) (files : list jsstring)
    (t1 t2 : list event) :
  help_requested args = false →
  select_metric args = ([], Return distanceMeasure) →
  resolve_branches execSync (branchArgs args) (arg_verbose args)
    = (t1, Return (branch1, branch2)) →
  getChangedFiles execSync branch1 branch2 (arg_verbose args)
    = (t2, Return files) →
  ∃ dists,
    row_values execSync distanceMeasure branch1 branch2 files dists ∧
    (files ≠ [] →
       stdout (run execSync args).1 = report_lines files dists (arg_list args) ∧
       (run execSync args).2 = Return tt) ∧
    (files = [] →
       stdout (run execSync args).1
         = [[Text (str "No changed files between branches.")]] ∧
       (run execSync args).2 = Exit 0) ∧
    (∀ zs, dists = NInt <$> zs →
       foldl number_add (NInt 0) dists = NInt (sum_Z zs)).
Proof.
  intros Hhelp Hsel Hres Hfiles.
  pose proof (resolve_branches_stdout execSync (branchArgs args)
    (arg_verbose args)) as Ho1. rewrite Hres in Ho1. simpl in Ho1.
  pose proof (getChangedFiles_stdout execSync branch1 branch2
    (arg_verbose args)) as Ho2. rewrite Hfiles in Ho2. simpl in Ho2.
  assert (run execSync args =
    (t1 ++ t2 ++
       (if bool_decide (length files = 0)
        then console_log [Text (str "No changed files between branches.")];;
             process_exit 0
        else report execSync branch1 branch2 distanceMeasure files
               (arg_verbose args) (arg_list args)).1,
     (if bool_decide (length files = 0)
      then console_log [Text (str "No changed files between branches.")];;
           process_exit 0
      else report execSync branch1 branch2 distanceMeasure files
             (arg_verbose args) (arg_list args)).2)) as Hrun.
  { unfold run. rewrite Hhelp.
    rewrite (io_bind_return _ _ _ _ Hsel). simpl.
    rewrite (io_bind_return _ _ _ _ Hres). simpl.
    rewrite (io_bind_return _ _ _ _ Hfiles). simpl.
    by destruct (bool_decide (length files = 0)). }
  destruct files as [|file files].
  - exists []. split; [constructor |].
    split; [done |]. split.
    + intros _. rewrite Hrun. simpl.
      rewrite !stdout_app, Ho1, Ho2. done.
    + intros zs Hz. destruct zs; [done | discriminate].
  - destruct (report_returns execSync branch1 branch2 distanceMeasure
      (file :: files) (arg_verbose args) (arg_list args))
      as (t & dists & Hrows & Hrep & Hout); [done |].
    exists dists. split; [done |]. split; [| split; [done |]].
    + intros _. rewrite Hrun. simpl. rewrite Hrep. simpl.
      rewrite !stdout_app, Ho1, Ho2, Hout. done.
    + intros zs ->. rewrite foldl_number_add_int. f_equal.
Qed.

Lemma aggregation_reports_rows_and_total_witness :
  stdout (run shell_two_files
            [str "main"; str "dev"; str "--hamming"; str "--list"]).1
  = [row_line 6 (str "a.txt") (NInt 1); row_line 6 (str "bb.txt") (NInt 2);
     rule_line 6; [Num (NInt 3)]].
Proof.
  destruct (aggregation_reports_rows_and_total shell_two_files
    [str "main"; str "dev"; str "--hamming"; str "--list"] (str "--hamming")
    (str "main") (str "dev") [str "a.txt"; str "bb.txt"] []
    [Exec (str "git diff --name-only main..dev")])
    as (dists & Hrows & Hne & _);
    [by vm_compute | by vm_compute | by vm_compute | by vm_compute |].
  destruct (Hne ltac:(done)) as [-> _].
  inversion Hrows as [|? d1 ? ds H1 Hrows']; subst.
  inversion Hrows' as [|? d2 ? ds' H2 Hrows'']; subst.
  inversion Hrows''; subst.
  vm_compute in H1. vm_compute in H2.
  injection H1 as <-. injection H2 as <-.
  by vm_compute.
Defined.

(** *** Selection of the metric *)

Lemma selectedDistanceFlags_two args flag1 flag2 :
  flag1 ∈ distanceFlags → flag2 ∈ distanceFlags → flag1 ≠ flag2 →
  flag1 ∈ args → flag2 ∈ args →
  1 < length (selectedDistanceFlags args).
Proof.
  intros Hd1 Hd2 Hne Ha1 Ha2.
  assert (flag1 ∈ selectedDistanceFlags args) as H1.
  { apply list_elem_of_filter. split; [by apply bool_decide_eq_true_2 | done]. }
  assert (flag2 ∈ selectedDistanceFlags args) as H2.
  { apply list_elem_of_filter. split; [by apply bool_decide_eq_true_2 | done]. }
  destruct (selectedDistanceFlags args) as [|x [|y l]]; simpl; [| | lia].
  - by apply elem_of_nil in H1.
  - apply list_elem_of_singleton in H1, H2. congruence.
Qed.

Lemma selectedDistanceFlags_none args :
  (∀ flag, flag ∈ distanceFlags → flag ∉ args) →
  selectedDistanceFlags args = [].
Proof.
  intros Hnone. apply elem_of_nil_inv. intros flag Hin.
  apply list_elem_of_filter in Hin as [Hinc Hd].
  apply bool_decide_eq_true_1 in Hinc. by apply (Hnone flag).
Qed.

Lemma select_metric_ambiguous args :
  1 < length (selectedDistanceFlags args) →
  select_metric args =
    ([Err [Text (str "Error: Multiple distance measures specified: "
                 ++ join_str (str ", ") (selectedDistanceFlags args))];
      Err [Text (str "Please specify only one distance measure at a time.")]],
     Exit 1).
Proof.
  intros Hlen. unfold select_metric.
  by rewrite bool_decide_eq_true_2.
Qed.

#[local] Transparent str.

Lemma getDistance_levenshtein a b :
  getDistance (str "levenshtein") a b = Some (NInt (distance a b)).
Proof.
  unfold getDistance.
  repeat (case_decide as H; [by vm_compute in H |]). done.
Qed.

(** C3: when two different metric names are among the arguments, metric
    selection writes its two error lines and exits with code 1; the run
    then executes no git command at all, so no content pair is fetched or
    evaluated and no metric is used as a fallback (unless the usage text
    was asked for, the run is exactly that failure); when no metric name
    is among the arguments, the selected metric is Levenshtein. *)
Theorem metric_selection_rejects_ambiguity (args : list jsstring) :
  (∀ flag1 flag2,
     flag1 ∈ distanceFlags → flag2 ∈ distanceFlags → flag1 ≠ flag2 →
     flag1 ∈ args → flag2 ∈ args →
     select_metric args =
       ([Err [Text (str "Error: Multiple distance measures specified: "
                    ++ join_str (str ", ") (selectedDistanceFlags args))];
         Err [Text (str "Please specify only one distance measure at a time.")]],
        Exit 1) ∧
     ∀ execSync,
       commands (run execSync args).1 = [] ∧
       stdout (run execSync args).1 = (if help_requested args
                                       then [[Text usage]] else []) ∧
       (run execSync args).2 = Exit (if help_requested args then 0 else 1)) ∧
  ((∀ flag, flag ∈ distanceFlags → flag ∉ args) →
     select_metric args = ([], Return (str "levenshtein")) ∧
     ∀ a b, getDistance (str "levenshtein") a b = Some (NInt (distance a b))).
Proof.
  split.
  - intros flag1 flag2 Hd1 Hd2 Hne Ha1 Ha2.
    pose proof (selectedDistanceFlags_two _ _ _ Hd1 Hd2 Hne Ha1 Ha2) as Hlen.
    split; [by apply select_metric_ambiguous |].
    intros execSync. unfold run.
    destruct (help_requested args); [done |].
    by rewrite (select_metric_ambiguous _ Hlen).
  - intros Hnone. split; [| apply getDistance_levenshtein].
    unfold select_metric. by rewrite (selectedDistanceFlags_none _ Hnone).
Qed.

Lemma metric_selection_rejects_ambiguity_witness :
  (run shell_two_files [str "main"; str "dev"; str "--lcs"; str "--words"]).2
    = Exit 1 ∧
  select_metric [str "main"; str "dev"] = ([], Return (str "levenshtein")).
Proof.
  destruct (metric_selection_rejects_ambiguity
    [str "main"; str "dev"; str "--lcs"; str "--words"]) as [Hamb _].
  destruct (metric_selection_rejects_ambiguity [str "main"; str "dev"])
    as [_ Hnone].
  split.
  - destruct (Hamb (str "--lcs") (str "--words")) as [_ Hrun].
    + apply (bool_decide_unpack _). by vm_compute.
    + apply (bool_decide_unpack _). by vm_compute.
    + by vm_compute.
    + apply (bool_decide_unpack _). by vm_compute.
    + apply (bool_decide_unpack _). by vm_compute.
    + apply (Hrun shell_two_files).
  - apply Hnone. intros flag Hd Ha.
    apply list_elem_of_In in Ha. simpl in Ha.
    destruct Ha as [<-|[<-|[]]];
      apply (bool_decide_pack _) in Hd; by vm_compute in Hd.
Defined.

(** ** Symmetry of the five distances *)

(** C7: each of the five distance-style metrics gives the same value
    when its arguments are exchanged; the Jaro-Winkler metric moreover
    returns a value on every pair. *)
Theorem distance_metrics_symmetric (a b : jsstring) :
  distance a b = distance b a ∧
  hammingDistance a b = hammingDistance b a ∧
  damerauLevenshtein a b = damerauLevenshtein b a ∧
  longestCommonSubsequence a b = longestCommonSubsequence b a ∧
  jaroWinkler a b = jaroWinkler b a ∧
  is_Some (jaroWinkler a b).
Proof.
  split; [apply levenshtein_recurrence_sym |].
  split; [apply hammingDistance_sym |].
  split.
  { rewrite !damerauLevenshtein_eq.
    by apply (damerau_recurrence_sym a b (length a + length b)). }
  split; [apply longestCommonSubsequence_sym |].
  split; [apply jaroWinkler_sym | apply jaroWinkler_total].
Qed.

(** * Further properties of the metrics *)

(** ** Damerau-Levenshtein distance: bounds and zero distance *)

Lemma damerau_recurrence_bounds a b n :
  ∀ i j, i + j ≤ n →
    (Z.abs (Z.of_nat i - Z.of_nat j) ≤ damerau_recurrence a b i j
       ≤ Z.max (Z.of_nat i) (Z.of_nat j))%Z.
Proof.
  induction n as [|n IH]; intros i j Hn.
  { assert (i = 0) as -> by lia. rewrite damerau_recurrence_0_l. lia. }
  destruct i as [|i]; [rewrite damerau_recurrence_0_l; lia |].
  destruct j as [|j]; [rewrite damerau_recurrence_0_r; lia |].
  rewrite damerau_recurrence_S. cbv zeta.
  pose proof (IH i (S j) ltac:(lia)).
  pose proof (IH (S i) j ltac:(lia)).
  pose proof (IH i j ltac:(lia)).
  pose proof (IH (i - 1) (j - 1) ltac:(lia)).
  set (d1 := damerau_recurrence a b i (S j)) in *.
  set (d2 := damerau_recurrence a b (S i) j) in *.
  set (d3 := damerau_recurrence a b i j) in *.
  set (d4 := damerau_recurrence a b (i - 1) (j - 1)) in *.
  clearbody d1 d2 d3 d4.
  destruct (bool_decide_reflect (0 < i)); cbn [andb];
    [destruct (bool_decide_reflect (0 < j)); cbn [andb] |];
    repeat destruct (strict_eq _ _); cbn [andb]; lia.
Qed.

Lemma damerau_recurrence_diag a i :
  damerau_recurrence a a i i = 0%Z.
Proof.
  induction i as [|i IH]; [done |].
  rewrite damerau_recurrence_S. cbv zeta.
  pose proof (damerau_recurrence_bounds a a _ i (S i) (le_n _)).
  pose proof (damerau_recurrence_bounds a a _ (S i) i (le_n _)).
  pose proof (damerau_recurrence_bounds a a _ (i - 1) (i - 1) (le_n _)).
  set (d1 := damerau_recurrence a a i (S i)) in *.
  set (d2 := damerau_recurrence a a (S i) i) in *.
  set (d4 := damerau_recurrence a a (i - 1) (i - 1)) in *.
  clearbody d1 d2 d4. rewrite IH.
  replace (strict_eq (a !! i) (a !! i)) with true
    by (symmetry; by apply bool_decide_eq_true_2).
  destruct (_ && _); lia.
Qed.

Lemma take_S_eq (a b : jsstring) i j :
  i < length a → j < length b →
  take i a = take j b → a !! i = b !! j → take (S i) a = take (S j) b.
Proof.
  intros Hi Hj Ht Hu.
  destruct (lookup_lt_is_Some_2 a i Hi) as [x Hx].
  destruct (lookup_lt_is_Some_2 b j Hj) as [y Hy].
  rewrite (take_S_r a i x Hx), (take_S_r b j y Hy), Ht. congruence.
Qed.

Lemma damerau_recurrence_zero a b n :
  ∀ i j, i + j ≤ n → i ≤ length a → j ≤ length b →
    damerau_recurrence a b i j = 0%Z → i = j ∧ take i a = take j b.
Proof.
  induction n as [|n IH]; intros i j Hn Hi Hj Hz.
  { assert (i = 0) as -> by lia. assert (j = 0) as -> by lia. done. }
  destruct i as [|i].
  { rewrite damerau_recurrence_0_l in Hz. assert (j = 0) as -> by lia. done. }
  destruct j as [|j].
  { rewrite damerau_recurrence_0_r in Hz. lia. }
  rewrite damerau_recurrence_S in Hz. cbv zeta in Hz.
  pose proof (damerau_recurrence_bounds a b _ i (S j) (le_n _)).
  pose proof (damerau_recurrence_bounds a b _ (S i) j (le_n _)).
  pose proof (damerau_recurrence_bounds a b _ i j (le_n _)).
  pose proof (damerau_recurrence_bounds a b _ (i - 1) (j - 1) (le_n _)).
  pose proof (IH i j ltac:(lia) ltac:(lia) ltac:(lia)) as IH3.
  pose proof (IH (i - 1) (j - 1) ltac:(lia) ltac:(lia) ltac:(lia)) as IH4.
  set (d1 := damerau_recurrence a b i (S j)) in *.
  set (d2 := damerau_recurrence a b (S i) j) in *.
  set (d3 := damerau_recurrence a b i j) in *.
  set (d4 := damerau_recurrence a b (i - 1) (j - 1)) in *.
  clearbody d1 d2 d3 d4. clear IH.
  unfold strict_eq in Hz.
  destruct (bool_decide_reflect (a !! i = b !! j)) as [Hu|Hu]; last first.
  { destruct (_ && _); lia. }
  destruct (decide (d3 = 0%Z)) as [Hd|Hd].
  { destruct (IH3 Hd) as [-> Ht].
    split; [done |]. apply take_S_eq; [lia | lia | done | done]. }
  destruct (bool_decide_reflect (0 < i)) as [Hi0|?]; cbn [andb] in Hz; [| lia].
  destruct (bool_decide_reflect (0 < j)) as [Hj0|?]; cbn [andb] in Hz; [| lia].
  destruct (bool_decide_reflect (a !! i = b !! (j - 1))) as [Hu1|?];
    cbn [andb] in Hz; [| lia].
  destruct (bool_decide_reflect (a !! (i - 1) = b !! j)) as [Hu2|?];
    cbn [andb] in Hz; [| lia].
  destruct IH4 as [Hij Ht]; [lia |].
  destruct i as [|i']; [lia |]. destruct j as [|j']; [lia |].
  rewrite !Nat.sub_succ, !Nat.sub_0_r in *. subst j'.
  split; [done |].
  apply take_S_eq; [lia | lia | | done].
  apply take_S_eq; [lia | lia | done | congruence].
Qed.

(** X1: the Damerau-Levenshtein distance lies between the difference of
    the two lengths and the longer length, and it is 0 exactly when the
    two strings are equal. *)
Theorem damerau_levenshtein_bounds_and_zero (a b : jsstring) :
  (Z.abs (len a - len b) ≤ damerauLevenshtein a b ≤ Z.max (len a) (len b))%Z ∧
  (damerauLevenshtein a b = 0%Z ↔ a = b).
Proof.
  rewrite damerauLevenshtein_eq. split.
  - apply (damerau_recurrence_bounds a b _ _ _ (le_n _)).
  - split.
    + intros Hz.
      destruct (damerau_recurrence_zero a b _ _ _ (le_n _)
        (le_n _) (le_n _) Hz) as [Hl Ht].
      rewrite <-(firstn_all a), <-(firstn_all b). done.
    + intros ->. apply damerau_recurrence_diag.
Qed.

(** ** Longest-common-subsequence distance: bounds and zero distance *)

Lemma sublist_full (s l : jsstring) :
  s `sublist_of` l → length l ≤ length s → s = l.
Proof.
  induction 1 as [|x s l Hs IH|x s l Hs IH]; simpl; intros Hlen.
  - done.
  - f_equal. apply IH. lia.
  - apply sublist_length in Hs. lia.
Qed.

Lemma lcs_rec_le a b :
  lcs_rec a b (length a) (length b) ≤ Nat.min (length a) (length b).
Proof.
  destruct (lcs_rec_full a b) as [(s & [Ha Hb] & <-) _].
  apply sublist_length in Ha, Hb. lia.
Qed.

(** X2: the longest-common-subsequence distance lies between the
    difference of the two lengths and the longer length, and it is 0
    exactly when the two strings are equal. *)
Theorem lcs_distance_bounds_and_zero (a b : jsstring) :
  (Z.abs (len a - len b) ≤ longestCommonSubsequence a b
     ≤ Z.max (len a) (len b))%Z ∧
  (longestCommonSubsequence a b = 0%Z ↔ a = b).
Proof.
  rewrite longestCommonSubsequence_eq.
  pose proof (lcs_rec_le a b) as Hle. unfold len. split; [lia |]. split.
  - intros Hz.
    destruct (lcs_rec_full a b) as [(s & [Ha Hb] & Hs) _].
    rewrite <-(sublist_full s a), <-(sublist_full s b); [done | done | lia | done | lia].
  - intros ->.
    assert (is_lcs_length b b (length b)) as Hfull.
    { split.
      - exists b. by repeat split.
      - intros s [Hs _]. by apply sublist_length. }
    rewrite (is_lcs_length_unique _ _ _ _ (lcs_rec_full b b) Hfull). lia.
Qed.

(** ** Hamming distance: bounds, zero distance, triangle inequality *)

Lemma differing_positions_le x y : differing_positions x y ≤ length x.
Proof.
  revert y. induction x as [|c x IH]; intros [|d y]; simpl; try lia.
  specialize (IH y). case_decide; lia.
Qed.

Lemma differing_positions_zero x y :
  length x = length y → differing_positions x y = 0 → x = y.
Proof.
  revert y. induction x as [|c x IH]; intros [|d y]; simpl; try done.
  intros Hlen Hz. case_decide; [| lia]. subst d. f_equal. apply IH; lia.
Qed.

Lemma differing_positions_triangle x y z :
  length x = length y → length y = length z →
  differing_positions x z ≤ differing_positions x y + differing_positions y z.
Proof.
  revert y z. induction x as [|c x IH]; intros [|d y] [|e z]; simpl; try lia.
  intros Hxy Hyz. specialize (IH y z ltac:(lia) ltac:(lia)).
  repeat case_decide; first [lia | congruence].
Qed.

Lemma differing_positions_app x x' y y' :
  length x = length y →
  differing_positions (x ++ x') (y ++ y') =
  differing_positions x y + differing_positions x' y'.
Proof.
  revert y. induction x as [|c x IH]; intros [|d y]; simpl; try done.
  intros Hlen. rewrite IH by lia. lia.
Qed.

(** Padding both strings further than the longer one does not change the
    count. *)
Lemma hammingDistance_padded a b n :
  Nat.max (length a) (length b) ≤ n →
  hammingDistance a b =
  Z.of_nat (differing_positions (padEnd a n SPACE) (padEnd b n SPACE)).
Proof.
  intros Hn. rewrite hammingDistance_eq. f_equal.
  set (m := Nat.max (length a) (length b)).
  assert (∀ s, length s ≤ m →
    padEnd s n SPACE = padEnd s m SPACE ++ replicate (n - m) SPACE) as Hpad.
  { intros s Hs. unfold padEnd. rewrite <-app_assoc. f_equal.
    rewrite <-replicate_add. f_equal. lia. }
  rewrite (Hpad a), (Hpad b) by lia.
  rewrite differing_positions_app by (rewrite !length_padEnd; lia).
  by rewrite differing_positions_refl.
Qed.

Lemma padEnd_eq_iff a b n :
  Nat.max (length a) (length b) ≤ n →
  padEnd a n SPACE = padEnd b n SPACE ↔
  ∃ k, b = a ++ replicate k SPACE ∨ a = b ++ replicate k SPACE.
Proof.
  intros Hn. unfold padEnd. split.
  - intros Heq.
    destruct (decide (length a ≤ length b)) as [Hle|Hle].
    + exists (length b - length a). left.
      apply (f_equal (take (length b))) in Heq.
      rewrite (take_app_length' b) in Heq by done.
      rewrite take_app_ge, take_replicate in Heq by lia.
      replace (length b - length a)
        with (Nat.min (length b - length a) (n - length a)) by lia.
      done.
    + exists (length a - length b). right.
      apply (f_equal (take (length a))) in Heq.
      rewrite (take_app_length' a) in Heq by done.
      rewrite take_app_ge, take_replicate in Heq by lia.
      replace (length a - length b)
        with (Nat.min (length a - length b) (n - length b)) by lia.
      done.
  - intros [k [-> | ->]]; rewrite length_app, length_replicate in *;
      rewrite <-app_assoc, <-replicate_add; do 2 f_equal; lia.
Qed.

(** X3: the Hamming distance is at most the longer length; it is 0
    exactly when one string is the other followed by spaces only; and it
    satisfies the triangle inequality. *)
Theorem hamming_bounds_zero_triangle (a b c : jsstring) :
  (0 ≤ hammingDistance a b ≤ Z.max (len a) (len b))%Z ∧
  (hammingDistance a b = 0%Z ↔
     ∃ k, b = a ++ replicate k SPACE ∨ a = b ++ replicate k SPACE) ∧
  (hammingDistance a c ≤ hammingDistance a b + hammingDistance b c)%Z.
Proof.
  split; [| split].
  - rewrite hammingDistance_eq.
    pose proof (differing_positions_le
      (padEnd a (Nat.max (length a) (length b)) SPACE)
      (padEnd b (Nat.max (length a) (length b)) SPACE)) as Hle.
    rewrite length_padEnd in Hle. unfold len. lia.
  - rewrite hammingDistance_eq, <-(padEnd_eq_iff a b _ (le_n _)). split.
    + intros Hz. apply differing_positions_zero; [rewrite !length_padEnd; lia | lia].
    + intros ->. by rewrite differing_positions_refl.
  - set (n := Nat.max (length a) (Nat.max (length b) (length c))).
    rewrite (hammingDistance_padded a c n), (hammingDistance_padded a b n),
      (hammingDistance_padded b c n) by lia.
    pose proof (differing_positions_triangle (padEnd a n SPACE)
      (padEnd b n SPACE) (padEnd c n SPACE)) as Ht.
    rewrite !length_padEnd in Ht. lia.
Qed.

(** ** Word count *)

Lemma split_ws_nonempty in_ws s : split_ws in_ws s ≠ [].
Proof.
  revert in_ws. induction s as [|c s IH]; intros in_ws; simpl; [done |].
  destruct (is_ws c).
  - destruct in_ws; [apply IH | done].
  - by destruct (split_ws false s).
Qed.

Lemma words_split_ws in_ws s :
  filter (λ w, Boolean w = true) (split_ws in_ws s) = words s.
Proof.
  unfold words. destruct in_ws; [| done].
  destruct s as [|c s]; simpl; [done |].
  destruct (is_ws c); [| done]. by rewrite filter_cons.
Qed.

Lemma split_ws_word_starts s :
  length (words s) = word_starts true s ∧
  ∃ seg rest, split_ws false s = seg :: rest ∧
    length (filter (λ w, Boolean w = true) rest) = word_starts false s.
Proof.
  induction s as [|c s [IH1 (seg & rest & IH2 & IH3)]].
  { split; [done |]. by exists [], []. }
  rewrite <-(words_split_ws true). simpl.
  destruct (is_ws c) eqn:Hc.
  - rewrite (words_split_ws true). split; [done |].
    exists [], (split_ws true s). split; [done |].
    by rewrite (words_split_ws true).
  - rewrite IH2. split.
    + rewrite filter_cons. simpl. by rewrite IH3.
    + by exists (c :: seg), rest.
Qed.

Lemma split_ws_no_ws in_ws s :
  Forall (Forall (λ c, is_ws c = false)) (split_ws in_ws s).
Proof.
  revert in_ws. induction s as [|c s IH]; intros in_ws; simpl.
  { by repeat constructor. }
  destruct (is_ws c) eqn:Hc.
  - destruct in_ws; [apply IH | constructor; [constructor | apply IH]].
  - specialize (IH false). destruct (split_ws false s) as [|seg rest].
    + by repeat constructor.
    + inversion_clear IH. constructor; [by constructor | done].
Qed.

Lemma concat_split_ws in_ws s :
  concat (split_ws in_ws s) = filter (λ c, is_ws c = false) s.
Proof.
  revert in_ws. induction s as [|c s IH]; intros in_ws; simpl; [done |].
  rewrite filter_cons. destruct (is_ws c) eqn:Hc; simpl.
  - destruct in_ws; simpl; apply IH.
  - specialize (IH false).
    pose proof (split_ws_nonempty false s).
    destruct (split_ws false s) as [|seg rest]; [done |].
    simpl in *. by rewrite IH.
Qed.

Lemma concat_filter_Boolean (l : list jsstring) :
  concat (filter (λ w, Boolean w = true) l) = concat l.
Proof.
  induction l as [|w l IH]; simpl; [done |].
  rewrite filter_cons. destruct w; simpl; [done |]. by rewrite IH.
Qed.

Lemma length_words s : length (words s) = word_starts true s.
Proof. apply split_ws_word_starts. Qed.

(** X4: the word count difference is the number of word starts of [b]
    minus that of [a], a word start being a unit that is not white space
    and follows white space or the start of the string; the words are
    non-empty, free of white space, and together hold exactly the units
    of the string that are not white space, in order. *)
Theorem word_count_counts_word_starts (a b s : jsstring) :
  wordCountDifference a b =
    (Z.of_nat (word_starts true b) - Z.of_nat (word_starts true a))%Z ∧
  Forall (λ w, w ≠ [] ∧ Forall (λ c, is_ws c = false) w) (words s) ∧
  concat (words s) = filter (λ c, is_ws c = false) s.
Proof.
  split; [| split].
  - unfold wordCountDifference. fold (words a) (words b).
    by rewrite !length_words.
  - apply Forall_forall. intros w Hw.
    apply list_elem_of_filter in Hw as [Hne Hin]. split.
    + intros ->. done.
    + pose proof (split_ws_no_ws false s) as Hall.
      rewrite Forall_forall in Hall. by apply Hall.
  - unfold words. rewrite concat_filter_Boolean. apply concat_split_ws.
Qed.

(** ** A missing file: the metrics against the empty string *)

Lemma differing_positions_spaces s :
  differing_positions s (replicate (length s) SPACE) =
  length (filter (λ c, c ≠ SPACE) s).
Proof.
  induction s as [|c s IH]; simpl; [done |].
  rewrite filter_cons, IH. destruct (decide (c = SPACE)).
  - by rewrite decide_False by (intros ?; done).
  - by rewrite decide_True.
Qed.

(** X5: when one side of a pair is the empty string (the content used for
    a file that is missing in a branch), the Damerau-Levenshtein, the
    longest-common-subsequence and the additions metrics give the length
    of the other side (additions with its sign), whereas the Hamming
    metric gives only the number of its units that are not spaces and the
    line count metric the number of its newlines. *)
Theorem metrics_against_empty_string (s : jsstring) :
  damerauLevenshtein [] s = len s ∧ damerauLevenshtein s [] = len s ∧
  longestCommonSubsequence [] s = len s ∧
  longestCommonSubsequence s [] = len s ∧
  calculateAdditions [] s = len s ∧ calculateAdditions s [] = (- len s)%Z ∧
  hammingDistance [] s = Z.of_nat (length (filter (λ c, c ≠ SPACE) s)) ∧
  hammingDistance s [] = Z.of_nat (length (filter (λ c, c ≠ SPACE) s)) ∧
  lineCountDifference [] s = Z.of_nat (length (filter (λ c, c = NEWLINE) s)) ∧
  lineCountDifference s [] = (- Z.of_nat (length (filter (λ c, c = NEWLINE) s)))%Z.
Proof.
  assert (hammingDistance s [] =
          Z.of_nat (length (filter (λ c, c ≠ SPACE) s))) as Hh.
  { rewrite hammingDistance_eq. simpl. rewrite Nat.max_0_r. unfold padEnd.
    rewrite Nat.sub_diag, app_nil_r. simpl. rewrite Nat.sub_0_r.
    by rewrite differing_positions_spaces. }
  split_and!.
  - done.
  - unfold damerauLevenshtein, len. simpl.
    by destruct s.
  - unfold longestCommonSubsequence, len. simpl. lia.
  - unfold longestCommonSubsequence, len. simpl. rewrite orb_true_r. lia.
  - unfold calculateAdditions, len. simpl. lia.
  - unfold calculateAdditions, len. simpl. lia.
  - by rewrite hammingDistance_sym.
  - done.
  - unfold lineCountDifference. rewrite !length_split_on. simpl. lia.
  - unfold lineCountDifference. rewrite !length_split_on. simpl. lia.
Qed.

(** ** Jaro-Winkler distance: what the scan keeps *)

Lemma count_true_le flags : count_true flags ≤ length flags.
Proof. apply length_filter. Qed.

Lemma count_true_zero_iff flags :
  count_true flags = 0 ↔ ∀ i, flags !! i ≠ Some true.
Proof.
  induction flags as [|f flags IH]; [done |].
  rewrite count_true_cons. split.
  - intros Hz [|i]; simpl.
    + destruct f; [lia | done].
    + apply IH. lia.
  - intros Hno. destruct f.
    + by specialize (Hno 0).
    + simpl. apply IH. intros i. apply (Hno (S i)).
Qed.

Lemma length_marked (s : jsstring) flags :
  length s = length flags → length (marked s flags) = count_true flags.
Proof.
  revert flags. induction s as [|c s IH]; intros [|f flags]; simpl; try done.
  intros Hlen. rewrite count_true_cons. destruct f; simpl; rewrite IH; lia.
Qed.

Lemma marked_insert (s : jsstring) flags i c :
  s !! i = Some c → flags !! i = Some false →
  marked s (<[i := true]> flags) ≡ₚ c :: marked s flags.
Proof.
  revert flags i. induction s as [|d s IH]; intros [|f flags] [|i]; simpl;
    try done.
  - by intros [= ->] [= ->].
  - intros Hc Hf. destruct f.
    + rewrite (IH _ _ Hc Hf). apply perm_swap.
    + by apply IH.
Qed.

(** The flagged units of the two strings are the same, up to order. *)
Lemma find_matches_marked a b :
  marked a (str1Matches (find_matches a b)) ≡ₚ
  marked b (str2Matches (find_matches a b)).
Proof.
  unfold find_matches.
  pose proof (for_loop_inv
    (λ k st, length (str1Matches st) = length a ∧
             length (str2Matches st) = length b ∧
             (∀ i, k ≤ i → str1Matches st !! i ≠ Some true) ∧
             marked a (str1Matches st) ≡ₚ marked b (str2Matches st))
    (match_step a b) 0 (length a)
    (MatchState (replicate (length a) false) (replicate (length b) false) 0))
    as Hinv.
  apply Hinv; clear Hinv.
  - simpl. split; [apply length_replicate |].
    split; [apply length_replicate |]. split.
    + intros i _. rewrite lookup_replicate. by intros [? _].
    + assert (∀ (s : jsstring) n, marked s (replicate n false) = []) as Hnil.
      { induction s as [|c s IH]; intros [|n]; simpl; done. }
      by rewrite !Hnil.
  - intros k st Hk (Hlen1 & Hlen2 & Hfree & Hperm). unfold match_step.
    destruct (first_match a b (str2Matches st) k _ _) as [j|] eqn:Hfm.
    + apply first_match_Some in Hfm as (Hr & Hfree2 & Hunit & _).
      apply window_range in Hr as [_ Hjb]. simpl.
      destruct (lookup_lt_is_Some_2 a k) as [c Hc]; [lia |].
      split; [by rewrite length_insert |].
      split; [by rewrite length_insert |]. split.
      * intros i Hi. rewrite list_lookup_insert_ne by lia. apply Hfree. lia.
      * rewrite (marked_insert a _ k c), (marked_insert b _ j c).
        -- by rewrite Hperm.
        -- congruence.
        -- apply lookup_flag_false; [lia | done].
        -- done.
        -- apply lookup_flag_false; [lia | apply Hfree; lia].
    + split; [done |]. split; [done |]. split; [| done].
      intros i Hi. apply Hfree. lia.
Qed.

Lemma differing_positions_le_r x y : differing_positions x y ≤ length y.
Proof. rewrite differing_positions_sym. apply differing_positions_le. Qed.

(** X6: the matching scan keeps the two flag arrays as long as their
    strings, sets as many flags in each as it counts matches, never more
    than the shorter length, and flags the same units on both sides up to
    order; the transposition loop then terminates with a count that is
    at most the number of matches. *)
Theorem jaro_winkler_scan_counts (a b : jsstring) :
  let st := find_matches a b in
  length (str1Matches st) = length a ∧
  length (str2Matches st) = length b ∧
  count_true (str1Matches st) = matches st ∧
  count_true (str2Matches st) = matches st ∧
  matches st ≤ Nat.min (length a) (length b) ∧
  marked a (str1Matches st) ≡ₚ marked b (str2Matches st) ∧
  ∃ transpositions,
    find_transpositions a b st = Some transpositions ∧
    transpositions ≤ matches st.
Proof.
  intros st. destruct (find_matches_invariant a b) as [M HI]. fold st in HI.
  destruct HI as [Hl1 Hl2 _ _ _ Hc1 Hc2 _ _ _ _ _ _].
  pose proof (count_true_le (str1Matches st)).
  pose proof (count_true_le (str2Matches st)).
  split_and!; try done; try lia.
  - apply find_matches_marked.
  - exists (differing_positions (marked a (str1Matches st))
                                (marked b (str2Matches st))).
    split; [apply find_transpositions_eq; [done | done | lia] |].
    pose proof (differing_positions_le (marked a (str1Matches st))
                                       (marked b (str2Matches st))) as Hle.
    rewrite length_marked in Hle by done. lia.
Qed.

(** X7: the scan finds no match exactly when no position of the first
    string has, within its window, a position of the second that holds
    the same unit; in particular two different strings without a common
    unit are at distance 1. *)
Theorem jaro_winkler_no_match (a b : jsstring) :
  (matches (find_matches a b) = 0 ↔
     ∀ i j, ¬ candidate a b (matchWindow a b) i j) ∧
  (a ≠ b → (∀ c, c ∈ a → c ∉ b) → jaroWinkler a b = Some 1%float).
Proof.
  destruct (find_matches_invariant a b) as [M HI].
  pose proof (scan_invariant_greedy _ _ _ _ _ HI) as HG.
  assert (matches (find_matches a b) = 0 ↔
          ∀ i j, ¬ candidate a b (matchWindow a b) i j) as Hiff.
  { split.
    - intros Hz i j Hc.
      assert (∀ i j, ¬ M i j) as Hempty.
      { intros i' j' HM.
        rewrite (si_count1 _ _ _ _ _ _ HI) in Hz.
        apply (proj1 (count_true_zero_iff _) Hz i').
        apply (si_flags1 _ _ _ _ _ _ HI). eauto. }
      destruct (gm_maximal _ _ _ _ HG i j Hc) as [[j' HM]|[i' HM]];
        by eapply Hempty.
    - intros Hno. rewrite (si_count1 _ _ _ _ _ _ HI).
      apply count_true_zero_iff. intros i Hi.
      apply (si_flags1 _ _ _ _ _ _ HI) in Hi as [j HM].
      by apply (Hno i j), (gm_candidate _ _ _ _ HG). }
  split; [done |].
  intros Hne Hdisj. unfold jaroWinkler.
  rewrite bool_decide_eq_false_2 by done.
  destruct (_ || _); [done |].
  rewrite bool_decide_eq_true_2; [done |].
  apply Hiff. intros i j [_ (c & Ha & Hb)].
  apply (Hdisj c); by eapply list_elem_of_lookup_2.
Qed.

Lemma jaro_winkler_no_match_witness :
  jaroWinkler (str "abc") (str "xy") = Some 1%float.
Proof.
  apply (jaro_winkler_no_match (str "abc") (str "xy")); [done |].
  intros c Ha Hb.
  apply list_elem_of_In in Ha, Hb. simpl in Ha, Hb.
  destruct Ha as [<-|[<-|[<-|[]]]]; destruct Hb as [Hb|[Hb|[]]];
    by vm_compute in Hb.
Defined.

(** * Further properties of the driver *)

#[local] Opaque str.

(** ** Reading from git *)

Lemma trim_start_spec s :
  ∃ pre, s = pre ++ trim_start s ∧ Forall (λ c, is_ws c = true) pre ∧
         ∀ c, head (trim_start s) = Some c → is_ws c = false.
Proof.
  induction s as [|c s (pre & Hs & Hpre & Hhead)]; simpl.
  { by exists []. }
  destruct (is_ws c) eqn:Hc.
  - exists (c :: pre). split; [by rewrite Hs at 1 |]. split; [by constructor | done].
  - exists []. split; [done |]. split; [done |]. by intros ? [= <-].
Qed.


(** [trim] removes white space at both ends and nothing else. *)
Lemma trim_spec s :
  ∃ pre post, s = pre ++ trim s ++ post ∧
    Forall (λ c, is_ws c = true) pre ∧ Forall (λ c, is_ws c = true) post ∧
    (∀ c, head (trim s) = Some c → is_ws c = false) ∧
    (∀ c, last (trim s) = Some c → is_ws c = false).
Proof.
  unfold trim.
  destruct (trim_start_spec s) as (pre & Hs & Hpre & Hhead).
  destruct (trim_start_spec (reverse (trim_start s))) as (post & Hr & Hpost & Hlast).
  set (v := trim_start (reverse (trim_start s))) in *.
  assert (trim_start s = reverse v ++ reverse post) as Hu.
  { rewrite <-reverse_app, <-Hr. by rewrite reverse_involutive. }
  exists pre, (reverse post). split; [by rewrite <-Hu |].
  split; [done |]. split; [by apply Forall_reverse |]. split.
  - intros c Hc. apply Hhead. rewrite Hu.
    destruct (reverse v); [done | done].
  - intros c Hc. apply Hlast. by rewrite <-last_reverse.
Qed.


(** X8: fetching a file never fails and writes nothing to standard
    output: when the existence check fails the content is the empty
    string and [git show] is not run; otherwise the content is the output
    of [git show], or the empty string when that command fails; without
    [verbose] nothing is written to standard error either. *)
Theorem getFileFromBranch_never_fails
    (execSync : jsstring → jsstring + jsstring)
    (branch file : jsstring) (verbose : bool) :
  let check := str "git cat-file -e " ++ branch ++ str ":" ++ file in
  let show := str "git show " ++ branch ++ str ":" ++ file in
  ∃ t content,
    getFileFromBranch execSync branch file verbose = (t, Return content) ∧
    stdout t = [] ∧
    (verbose = false → stderr t = []) ∧
    match execSync check with
    | inr _ => content = [] ∧ commands t = [check]
    | inl _ =>
        commands t = [check; show] ∧
        content = match execSync show with
                  | inl output => output
                  | inr _ => []
                  end
    end.
Proof.
  intros check show.
  unfold getFileFromBranch, fileExistsInBranch, exec. io_unfold.
  fold check show.
  destruct (execSync check); destruct verbose; simpl;
    try destruct (execSync show); simpl;
    eexists _, _; (split; [reflexivity |]); done.
Qed.

Lemma getFileFromBranch_never_fails_witness :
  (getFileFromBranch
     (λ cmd, if decide (cmd = str "git cat-file -e dev:gone.txt")
             then inr (str "fatal: path does not exist")
             else shell_two_files cmd)
     (str "dev") (str "gone.txt") false).2
  = Return [].
Proof.
  destruct (getFileFromBranch_never_fails
    (λ cmd, if decide (cmd = str "git cat-file -e dev:gone.txt")
            then inr (str "fatal: path does not exist")
            else shell_two_files cmd)
    (str "dev") (str "gone.txt") false) as (t & content & Heq & _ & _ & Hc).
  rewrite Heq. vm_compute in Hc. by destruct Hc as [-> _].
Defined.



(** X10: finding the current branch runs the one [git rev-parse] command;
    when it fails, whatever its message, the error raised is "Not in a
    git repository"; otherwise the branch is the output without the white
    space at its two ends, and only that white space is removed. *)
Theorem getCurrentBranch_trims
    (execSync : jsstring → jsstring + jsstring) (verbose : bool) :
  let r := getCurrentBranch execSync verbose in
  commands r.1 = [str "git rev-parse --abbrev-ref HEAD"] ∧ stdout r.1 = [] ∧
  match execSync (str "git rev-parse --abbrev-ref HEAD") with
  | inr _ => r.2 = Throw (str "Not in a git repository")
  | inl output =>
      ∃ branch pre post, r.2 = Return branch ∧
        output = pre ++ branch ++ post ∧
        Forall (λ c, is_ws c = true) pre ∧
        Forall (λ c, is_ws c = true) post ∧
        (∀ c, head branch = Some c → is_ws c = false) ∧
        (∀ c, last branch = Some c → is_ws c = false)
  end.
Proof.
  intros r. subst r. unfold getCurrentBranch, exec. io_unfold.
  destruct (execSync (str "git rev-parse --abbrev-ref HEAD")) as [output|message];
    destruct verbose; simpl; (split; [done |]); (split; [done |]); try done.
  all: destruct (trim_spec output) as (pre & post & H1 & H2 & H3 & H4 & H5).
  all: by exists (trim output), pre, post.
Qed.

(** ** Arguments *)

Lemma run_eq execSync args :
  run execSync args =
  if help_requested args
  then console_log [Text usage];; process_exit 0
  else run_from execSync args (arg_verbose args).
Proof. reflexivity. Qed.

Lemma select_metric_single args :
  length (selectedDistanceFlags args) ≤ 1 →
  select_metric args =
    ([], Return (match selectedDistanceFlags args with
                 | flag :: _ => flag
                 | [] => str "levenshtein"
                 end)).
Proof.
  intros Hlen. unfold select_metric.
  by rewrite bool_decide_eq_false_2 by lia.
Qed.

Lemma resolve_branches_wrong_count execSync branchArgs verbose :
  length branchArgs ≠ 1 → length branchArgs ≠ 2 →
  resolve_branches execSync branchArgs verbose =
    ([Err [Text (str "Error: Invalid number of arguments. Use --help for usage.")]],
     Exit 1).
Proof.
  intros H1 H2. by destruct branchArgs as [|x [|y [|z l]]].
Qed.

(** X11: [run] checks its arguments before it touches git: a run that
    executes any command was not asked for the usage text, names at most
    one metric and has one or two arguments that are not flags; with
    another number of such arguments it writes "Error: Invalid number of
    arguments. Use --help for usage." and exits with code 1. *)
Theorem run_validates_arguments_first
    (execSync : jsstring → jsstring + jsstring) (args : list jsstring) :
  (commands (run execSync args).1 ≠ [] →
     help_requested args = false ∧
     length (selectedDistanceFlags args) ≤ 1 ∧
     (length (branchArgs args) = 1 ∨ length (branchArgs args) = 2)) ∧
  (help_requested args = false →
   length (selectedDistanceFlags args) ≤ 1 →
   length (branchArgs args) ≠ 1 → length (branchArgs args) ≠ 2 →
   run execSync args =
     ([Err [Text (str "Error: Invalid number of arguments. Use --help for usage.")]],
      Exit 1)).
Proof.
  assert (help_requested args = false →
    length (selectedDistanceFlags args) ≤ 1 →
    length (branchArgs args) ≠ 1 → length (branchArgs args) ≠ 2 →
    run execSync args =
      ([Err [Text (str "Error: Invalid number of arguments. Use --help for usage.")]],
       Exit 1)) as Hwrong.
  { intros Hhelp Hsel H1 H2. rewrite run_eq, Hhelp. unfold run_from.
    rewrite (select_metric_single _ Hsel).
    by rewrite (resolve_branches_wrong_count _ _ _ H1 H2). }
  split; [| done].
  intros Hcmd. destruct (help_requested args) eqn:Hhelp.
  { by rewrite run_eq, Hhelp in Hcmd. }
  split; [done |].
  destruct (decide (length (selectedDistanceFlags args) ≤ 1)) as [Hsel|Hsel];
    last first.
  { rewrite run_eq, Hhelp in Hcmd. unfold run_from in Hcmd.
    by rewrite select_metric_ambiguous in Hcmd by lia. }
  split; [done |].
  destruct (decide (length (branchArgs args) = 1)); [by left |].
  destruct (decide (length (branchArgs args) = 2)); [by right |].
  by rewrite Hwrong in Hcmd.
Qed.

Lemma run_validates_arguments_first_witness :
  run shell_two_files [str "--list"; str "--lcs"] =
    ([Err [Text (str "Error: Invalid number of arguments. Use --help for usage.")]],
     Exit 1) ∧
  length (branchArgs [str "main"; str "dev"; str "--hamming"; str "--list"]) = 2.
Proof.
  destruct (run_validates_arguments_first shell_two_files
    [str "--list"; str "--lcs"]) as [_ Hwrong].
  destruct (run_validates_arguments_first shell_two_files
    [str "main"; str "dev"; str "--hamming"; str "--list"]) as [Hvalid _].
  split.
  - apply Hwrong; by vm_compute.
  - destruct Hvalid as (_ & _ & [H1|H2]); [by vm_compute | | done].
    by vm_compute in H1.
Defined.



(** ** Failures of git *)

Lemma getChangedFiles_fails execSync branch1 branch2 verbose message :
  execSync (str "git diff --name-only " ++ branch1 ++ str ".." ++ branch2)
    = inr message →
  (getChangedFiles execSync branch1 branch2 verbose).2
    = Throw (str "Failed to compare branches: " ++ message) ∧
  stdout (getChangedFiles execSync branch1 branch2 verbose).1 = [] ∧
  commands (getChangedFiles execSync branch1 branch2 verbose).1
    = [str "git diff --name-only " ++ branch1 ++ str ".." ++ branch2].
Proof.
  intros Hfail. unfold getChangedFiles, exec. io_unfold.
  rewrite Hfail. by destruct verbose.
Qed.

(** X13: a failure of git before the aggregation ends the run with an
    uncaught error and nothing on standard output: when the current
    branch cannot be found the error is "Not in a git repository" and no
    other command is run; when the list of changed files cannot be
    obtained the error is "Failed to compare branches: " followed by the
    message of the failure, and no file content is fetched. *)
Theorem run_propagates_git_failures
    (execSync : jsstring → jsstring + jsstring) (args : list jsstring) :
  help_requested args = false →
  length (selectedDistanceFlags args) ≤ 1 →
  (∀ arg message,
     branchArgs args = [arg] →
     execSync (str "git rev-parse --abbrev-ref HEAD") = inr message →
     (run execSync args).2 = Throw (str "Not in a git repository") ∧
     stdout (run execSync args).1 = [] ∧
     commands (run execSync args).1 = [str "git rev-parse --abbrev-ref HEAD"]) ∧
  (∀ branch1 branch2 t1 message,
     resolve_branches execSync (branchArgs args) (arg_verbose args)
       = (t1, Return (branch1, branch2)) →
     execSync (str "git diff --name-only " ++ branch1 ++ str ".." ++ branch2)
       = inr message →
     (run execSync args).2
       = Throw (str "Failed to compare branches: " ++ message) ∧
     stdout (run execSync args).1 = [] ∧
     commands (run execSync args).1 =
       commands t1 ++
       [str "git diff --name-only " ++ branch1 ++ str ".." ++ branch2]).
Proof.
  intros Hhelp Hsel. rewrite run_eq, Hhelp. unfold run_from.
  rewrite (io_bind_return _ _ _ _ (select_metric_single _ Hsel)). split.
  - intros arg message Hargs Hfail. rewrite Hargs.
    unfold resolve_branches, getCurrentBranch, exec. io_unfold.
    rewrite Hfail. by destruct (arg_verbose args).
  - intros branch1 branch2 t1 message Hres Hfail.
    pose proof (resolve_branches_stdout execSync (branchArgs args)
      (arg_verbose args)) as Ho1. rewrite Hres in Ho1. simpl in Ho1.
    destruct (getChangedFiles_fails execSync branch1 branch2
      (arg_verbose args) message Hfail) as (Hthrow & Hout & Hcmd).
    destruct (getChangedFiles execSync branch1 branch2 (arg_verbose args))
      as [t2 o2] eqn:Hfiles. simpl in Hthrow, Hout, Hcmd. subst o2.
    rewrite (io_bind_return _ _ _ _ Hres). simpl.
    rewrite Hfiles. simpl.
    rewrite stdout_app, commands_app, Ho1, Hout, Hcmd. done.
Qed.

Lemma run_propagates_git_failures_witness :
  (run (λ cmd, inr (str "fatal: not a git repository")) [str "main"]).2
    = Throw (str "Not in a git repository").
Proof.
  destruct (run_propagates_git_failures
    (λ cmd, inr (str "fatal: not a git repository")) [str "main"])
    as [Hcur _]; [by vm_compute | vm_compute; lia |].
  by destruct (Hcur (str "main") (str "fatal: not a git repository")) as [-> _].
Defined.

(** ** One metric flag *)

Lemma filter_unique {A} (P : A → Prop) `{!∀ x, Decision (P x)} (l : list A) x :
  NoDup l → x ∈ l → P x → (∀ y, y ∈ l → P y → y = x) → filter P l = [x].
Proof.
  intros Hnd Hin Hx Huniq.
  induction Hnd as [|y l Hy Hnd IH]; [by apply elem_of_nil in Hin |].
  rewrite filter_cons.
  apply elem_of_cons in Hin as [<-|Hin].
  - rewrite decide_True by done. f_equal.
    apply elem_of_nil_inv. intros z [Hz Hzl]%list_elem_of_filter.
    assert (z = x) as -> by (apply Huniq; [by right | done]). done.
  - rewrite decide_False.
    + apply IH; [done |]. intros z Hz. apply Huniq. by right.
    + intros Hpy. assert (y = x) as -> by (apply Huniq; [by left | done]).
      done.
Qed.

Lemma NoDup_distanceFlags : NoDup distanceFlags.
Proof. apply (bool_decide_unpack _). by vm_compute. Qed.

Ltac dispatch :=
  unfold getDistance;
  repeat (let H := fresh in
          case_decide as H; [first [done | by vm_compute in H] |]);
  try done.

(** X14: a metric flag that is the only metric named among the
    arguments, wherever it stands and however often it is repeated,
    selects its own metric: selection returns that flag, and the
    evaluator maps each of the seven flags to the function it names. *)
Theorem single_metric_flag_selects_it (args : list jsstring) (flag : jsstring) :
  (flag ∈ distanceFlags → flag ∈ args →
   (∀ other, other ∈ distanceFlags → other ∈ args → other = flag) →
   select_metric args = ([], Return flag)) ∧
  ∀ a b,
    getDistance (str "--hamming") a b = Some (NInt (hammingDistance a b)) ∧
    getDistance (str "--additions") a b = Some (NInt (calculateAdditions a b)) ∧
    getDistance (str "--damerau-levenshtein") a b
      = Some (NInt (damerauLevenshtein a b)) ∧
    getDistance (str "--jaro-winkler") a b = NFloat <$> jaroWinkler a b ∧
    getDistance (str "--lcs") a b = Some (NInt (longestCommonSubsequence a b)) ∧
    getDistance (str "--lines") a b = Some (NInt (lineCountDifference a b)) ∧
    getDistance (str "--words") a b = Some (NInt (wordCountDifference a b)).
Proof.
  split.
  - intros Hd Ha Huniq.
    assert (selectedDistanceFlags args = [flag]) as Hsel.
    { apply filter_unique; [apply NoDup_distanceFlags | done | |].
      - by apply bool_decide_eq_true_2.
      - intros other Ho Hinc. apply Huniq; [done |].
        by apply bool_decide_eq_true_1 in Hinc. }
    rewrite select_metric_single; rewrite Hsel; [done | simpl; lia].
  - intros a b. split_and!; dispatch.
Qed.

Lemma single_metric_flag_selects_it_witness :
  select_metric [str "--lcs"; str "main"; str "--lcs"; str "dev"]
    = ([], Return (str "--lcs")).
Proof.
  destruct (single_metric_flag_selects_it
    [str "--lcs"; str "main"; str "--lcs"; str "dev"] (str "--lcs"))
    as [Hsel _].
  apply Hsel.
  - apply (bool_decide_unpack _). by vm_compute.
  - apply (bool_decide_unpack _). by vm_compute.
  - intros other Hd Ha.
    apply list_elem_of_In in Ha. cbn [In] in Ha.
    destruct Ha as [<-|[<-|[<-|[<-|[]]]]]; try done;
      apply (bool_decide_pack _) in Hd; by vm_compute in Hd.
Defined.

(** ** Debug output *)

Lemma undebug_app t1 t2 : undebug (t1 ++ t2) = undebug t1 ++ undebug t2.
Proof. apply filter_app. Qed.

Lemma debug_only_const {A} (m : io A) :
  undebug m.1 = m.1 → debug_only (λ _, m).
Proof. intros Hm verbose. done. Qed.

Lemma debug_only_bind {A B} (f : bool → io A) (k : bool → A → io B) :
  debug_only f → (∀ x, debug_only (λ verbose, k verbose x)) →
  debug_only (λ verbose, f verbose ≫= k verbose).
Proof.
  intros Hf Hk verbose. destruct (Hf verbose) as [Ht Ho].
  unfold mbind, io_mbind, io_bind.
  destruct (f verbose) as [t o], (f false) as [t0 o0]. simpl in Ht, Ho.
  subst o0 t0. destruct o as [x| | |]; try done.
  destruct (Hk x verbose) as [Ht' Ho']. simpl in Ht', Ho'.
  destruct (k verbose x) as [t' o'], (k false x) as [t0' o0'].
  simpl in *. subst. by rewrite undebug_app.
Qed.

#[local] Transparent str.

Lemma debug_only_getFileFromBranch execSync branch file :
  debug_only (getFileFromBranch execSync branch file).
Proof.
  intros verbose.
  unfold getFileFromBranch, fileExistsInBranch, exec. io_unfold.
  destruct (execSync (str "git cat-file -e " ++ branch ++ str ":" ++ file));
    [destruct (execSync (str "git show " ++ branch ++ str ":" ++ file)) |];
    destruct verbose; split; by vm_compute.
Qed.

Lemma debug_only_getChangedFiles execSync branch1 branch2 :
  debug_only (getChangedFiles execSync branch1 branch2).
Proof.
  intros verbose. unfold getChangedFiles, exec. io_unfold.
  destruct (execSync (str "git diff --name-only " ++ branch1 ++ str ".." ++ branch2));
    destruct verbose; split; by vm_compute.
Qed.

Lemma debug_only_resolve_branches execSync branchArgs :
  debug_only (resolve_branches execSync branchArgs).
Proof.
  intros verbose. unfold resolve_branches, getCurrentBranch, exec. io_unfold.
  destruct branchArgs as [|arg1 [|arg2 [|arg3 rest]]];
    try destruct (execSync (str "git rev-parse --abbrev-ref HEAD"));
    destruct verbose; split; by vm_compute.
Qed.

Lemma debug_only_select_metric args : undebug (select_metric args).1 = (select_metric args).1.
Proof.
  unfold select_metric. destruct (bool_decide _); by vm_compute.
Qed.

#[local] Opaque str.

Lemma debug_only_report_loop execSync branch1 branch2 distanceMeasure
    maxFileLen (per_file : bool) files :
  ∀ total, debug_only (λ verbose,
    report_loop execSync branch1 branch2 distanceMeasure maxFileLen files
      total verbose per_file).
Proof.
  induction files as [|file files IH]; intros total; [done |].
  cbn [report_loop].
  apply (debug_only_bind (getFileFromBranch execSync branch1 file));
    [apply debug_only_getFileFromBranch |].
  intros contentA.
  apply (debug_only_bind (getFileFromBranch execSync branch2 file));
    [apply debug_only_getFileFromBranch |].
  intros contentB.
  destruct (getDistance distanceMeasure contentA contentB) as [dist|]; [| done].
  apply (debug_only_bind (λ _, when per_file _) (λ verbose _, _));
    [apply debug_only_const; by destruct per_file | intros _; apply IH].
Qed.

Lemma debug_only_report execSync branch1 branch2 distanceMeasure files
    (per_file : bool) :
  debug_only (λ verbose,
    report execSync branch1 branch2 distanceMeasure files verbose per_file).
Proof.
  unfold report.
  apply (debug_only_bind (λ verbose, report_loop _ _ _ _ _ _ _ verbose _)
                         (λ verbose total, _));
    [apply debug_only_report_loop |].
  intros total. apply debug_only_const.
  destruct per_file; [destruct (bool_decide _) |]; done.
Qed.

Lemma debug_only_run_from execSync args :
  debug_only (run_from execSync args).
Proof.
  unfold run_from.
  apply (debug_only_bind (λ _, select_metric args) (λ verbose distanceMeasure, _));
    [apply debug_only_const, debug_only_select_metric |].
  intros distanceMeasure.
  apply (debug_only_bind (resolve_branches execSync (branchArgs args))
                         (λ verbose '(branch1, branch2), _));
    [apply debug_only_resolve_branches |].
  intros [branch1 branch2].
  apply (debug_only_bind (getChangedFiles execSync branch1 branch2)
                         (λ verbose files, _));
    [apply debug_only_getChangedFiles |].
  intros files. destruct (bool_decide (length files = 0)).
  - by apply debug_only_const.
  - apply debug_only_report.
Qed.

Lemma filter_ext_Forall {A} (P1 P2 : A → Prop)
    `{!∀ x, Decision (P1 x), !∀ x, Decision (P2 x)} (l : list A) :
  Forall (λ x, P1 x ↔ P2 x) l → filter P1 l = filter P2 l.
Proof.
  induction 1 as [|x l Hx _ IH]; [done |].
  rewrite !filter_cons, IH. destruct (decide (P1 x)), (decide (P2 x)); tauto.
Qed.

Lemma includes_insert args1 args2 (flag x : jsstring) :
  x ≠ flag → includes (args1 ++ flag :: args2) x = includes (args1 ++ args2) x.
Proof.
  intros Hne. unfold includes. apply bool_decide_ext.
  rewrite !elem_of_app, elem_of_cons. tauto.
Qed.

#[local] Transparent str.

Lemma verbose_flag_not_other (flag : jsstring) :
  flag = str "--verbose" ∨ flag = str "-V" →
  Forall (λ x, x ≠ flag)
    ([str "--help"; str "-h"; str "--list"; str "-L"] ++ distanceFlags).
Proof.
  intros [-> | ->]; apply Forall_forall; intros x Hx ->;
    apply (bool_decide_pack _) in Hx; by vm_compute in Hx.
Qed.

#[local] Opaque str.

Lemma run_from_insert_verbose execSync args1 args2 flag verbose :
  flag = str "--verbose" ∨ flag = str "-V" →
  run_from execSync (args1 ++ flag :: args2) verbose =
  run_from execSync (args1 ++ args2) verbose.
Proof.
  intros Hflag.
  pose proof (verbose_flag_not_other flag Hflag) as Hne.
  rewrite Forall_app, !Forall_cons in Hne.
  destruct Hne as [(_ & _ & Hl1 & Hl2 & _) Hd].
  assert (selectedDistanceFlags (args1 ++ flag :: args2) =
          selectedDistanceFlags (args1 ++ args2)) as Hsel.
  { unfold selectedDistanceFlags. apply filter_ext_Forall.
    apply Forall_forall. intros x Hx.
    rewrite Forall_forall in Hd. rewrite includes_insert; [done |].
    by apply Hd. }
  assert (branchArgs (args1 ++ flag :: args2) = branchArgs (args1 ++ args2))
    as Hbranch.
  { unfold branchArgs. rewrite !filter_app, filter_cons.
    rewrite decide_False; [done |]. destruct Hflag as [-> | ->]; tauto. }
  assert (arg_list (args1 ++ flag :: args2) = arg_list (args1 ++ args2))
    as Hlist.
  { unfold arg_list. by rewrite !includes_insert. }
  unfold run_from, select_metric. by rewrite Hsel, Hbranch, Hlist.
Qed.

(** X15: adding [--verbose] or [-V] anywhere among non-empty arguments
    changes neither the outcome of the run nor its events other than
    debug lines (lines on standard error that start with "[DEBUG]"):
    commands executed and lines on standard output stay the same, in the
    same order; and a run without either flag writes no debug line. *)
Theorem verbose_only_adds_debug_lines
    (execSync : jsstring → jsstring + jsstring)
    (args1 args2 : list jsstring) (flag : jsstring) :
  flag = str "--verbose" ∨ flag = str "-V" →
  args1 ++ args2 ≠ [] →
  undebug (run execSync (args1 ++ flag :: args2)).1
    = undebug (run execSync (args1 ++ args2)).1 ∧
  (run execSync (args1 ++ flag :: args2)).2
    = (run execSync (args1 ++ args2)).2 ∧
  (arg_verbose (args1 ++ args2) = false →
   undebug (run execSync (args1 ++ args2)).1
     = (run execSync (args1 ++ args2)).1).
Proof.
  intros Hflag Hne.
  pose proof (verbose_flag_not_other flag Hflag) as Hother.
  rewrite Forall_app, !Forall_cons in Hother.
  destruct Hother as [(Hh1 & Hh2 & _) _].
  assert (help_requested (args1 ++ flag :: args2) =
          help_requested (args1 ++ args2)) as Hhelp.
  { unfold help_requested. rewrite !includes_insert by done.
    rewrite (bool_decide_eq_false_2 (length (args1 ++ flag :: args2) = 0))
      by (rewrite length_app; simpl; lia).
    rewrite (bool_decide_eq_false_2 (length (args1 ++ args2) = 0)); [done |].
    by destruct (args1 ++ args2). }
  rewrite !run_eq, Hhelp.
  destruct (help_requested (args1 ++ args2)); [done |].
  rewrite (run_from_insert_verbose _ _ _ _ _ Hflag).
  pose proof (debug_only_run_from execSync (args1 ++ args2)) as Hdebug.
  destruct (Hdebug (arg_verbose (args1 ++ flag :: args2))) as [Ht Ho].
  destruct (Hdebug (arg_verbose (args1 ++ args2))) as [Ht' Ho'].
  split; [by rewrite Ht, Ht' |]. split; [by rewrite Ho, Ho' |].
  intros ->. apply (Hdebug false).
Qed.

Lemma verbose_only_adds_debug_lines_witness :
  stdout (run shell_two_files
            [str "main"; str "--verbose"; str "dev"; str "--hamming"]).1
    = [[Num (NInt 3)]] ∧
  (run shell_two_files
     [str "main"; str "--verbose"; str "dev"; str "--hamming"]).2
    = (run shell_two_files [str "main"; str "dev"; str "--hamming"]).2.
Proof.
  destruct (verbose_only_adds_debug_lines shell_two_files
    [str "main"] [str "dev"; str "--hamming"] (str "--verbose"))
    as (_ & Ho & _); [by left | done |].
  split; [by vm_compute | exact Ho].
Defined.

(** ** One branch argument *)

#[local] Transparent str.

Lemma resolve_branches_one execSync arg output verbose :
  execSync (str "git rev-parse --abbrev-ref HEAD") = inl output →
  (resolve_branches execSync [arg] verbose).2 = Return (trim output, arg) ∧
  undebug (resolve_branches execSync [arg] verbose).1
    = [Exec (str "git rev-parse --abbrev-ref HEAD")].
Proof.
  intros Hok. unfold resolve_branches, getCurrentBranch, exec. io_unfold.
  rewrite Hok. destruct verbose; split; by vm_compute.
Qed.

Lemma resolve_branches_two execSync arg1 arg2 verbose :
  (resolve_branches execSync [arg1; arg2] verbose).2 = Return (arg1, arg2) ∧
  undebug (resolve_branches execSync [arg1; arg2] verbose).1 = [].
Proof.
  unfold resolve_branches. io_unfold. destruct verbose; split; by vm_compute.
Qed.

#[local] Opaque str.

(** X16: with one branch argument the run compares the current branch,
    as first side, to the named branch, as second side: once [git
    rev-parse] has given the current branch, the run goes on exactly as
    the run whose two branch arguments are the current branch and the
    named one, with the same outcome and, debug lines apart, the same
    events after the [git rev-parse] command. *)
Theorem one_branch_compares_current_to_it
    (execSync : jsstring → jsstring + jsstring)
    (args args' : list jsstring) (arg output : jsstring) :
  help_requested args = false → help_requested args' = false →
  length (selectedDistanceFlags args) ≤ 1 →
  branchArgs args = [arg] →
  execSync (str "git rev-parse --abbrev-ref HEAD") = inl output →
  selectedDistanceFlags args' = selectedDistanceFlags args →
  arg_verbose args' = arg_verbose args →
  arg_list args' = arg_list args →
  branchArgs args' = [trim output; arg] →
  (run execSync args).2 = (run execSync args').2 ∧
  undebug (run execSync args).1 =
    Exec (str "git rev-parse --abbrev-ref HEAD")
    :: undebug (run execSync args').1.
Proof.
  intros Hhelp Hhelp' Hsel Hone Hok Hsel' Hverbose' Hlist' Htwo.
  assert (select_metric args' = select_metric args) as Hm.
  { unfold select_metric. by rewrite Hsel'. }
  rewrite !run_eq, Hhelp, Hhelp', Hverbose'.
  generalize (arg_verbose args). intros verbose.
  unfold run_from. rewrite Hm, Hlist', Hone, Htwo.
  rewrite !(io_bind_return _ _ _ _ (select_metric_single _ Hsel)).
  cbn [fst snd app].
  destruct (resolve_branches_one execSync arg output verbose Hok) as [Ho1 Ht1].
  destruct (resolve_branches_two execSync (trim output) arg verbose)
    as [Ho2 Ht2].
  destruct (resolve_branches execSync [arg] verbose) as [t1 o1].
  destruct (resolve_branches execSync [trim output; arg] verbose) as [t2 o2].
  simpl in Ho1, Ht1, Ho2, Ht2. subst o1 o2.
  rewrite !(io_bind_return _ _ _ _ eq_refl). cbn [fst snd].
  by rewrite !undebug_app, Ht1, Ht2.
Qed.

Lemma one_branch_compares_current_to_it_witness :
  (run (λ cmd,
      if decide (cmd = str "git rev-parse --abbrev-ref HEAD")
      then inl (str "main" ++ [NEWLINE]) else shell_two_files cmd)
     [str "dev"; str "--additions"]).1
  = [Exec (str "git rev-parse --abbrev-ref HEAD");
     Exec (str "git diff --name-only main..dev");
     Exec (str "git cat-file -e main:a.txt"); Exec (str "git show main:a.txt");
     Exec (str "git cat-file -e dev:a.txt"); Exec (str "git show dev:a.txt");
     Exec (str "git cat-file -e main:bb.txt"); Exec (str "git show main:bb.txt");
     Exec (str "git cat-file -e dev:bb.txt"); Exec (str "git show dev:bb.txt");
     Log [Num (NInt 2)]].
Proof.
  destruct (one_branch_compares_current_to_it
    (λ cmd, if decide (cmd = str "git rev-parse --abbrev-ref HEAD")
            then inl (str "main" ++ [NEWLINE]) else shell_two_files cmd)
    [str "dev"; str "--additions"] [str "main"; str "dev"; str "--additions"]
    (str "dev") (str "main" ++ [NEWLINE])) as [_ Ht];
    [by vm_compute | by vm_compute | vm_compute; lia | by vm_compute
    | by vm_compute | by vm_compute | by vm_compute | by vm_compute
    | by vm_compute |].
  vm_compute in Ht. by vm_compute.
Defined.
